(** * safing-core: the binary serialization layer

    A shallow embedding of the two codecs of the repository:

    - [formats/varint/VarInt.go]: the variable-length integer codec
      ([Pack8] .. [Pack64], [Unpack8] .. [Unpack64]);
    - [vendor/github.com/pkg/bson/encode.go]: the reflective document
      encoder ([encode], [writeMap], [writeValue], [writeSlice] and the
      primitive writers).

    Go values are modelled as follows.  A [byte] and every fixed-width
    integer is a [Z] with the wrap-around of Go's conversions written out
    ([byte], [int32], [uint64]).  A [[]byte] is a [list Z]; a Go [string]
    is a Rocq [string] (a sequence of 8-bit characters, as in Go).  An
    [error] made by [errors.New] is its message.  A panic is a result of
    its own.  A Go [int] (a count, a length) is a [Z]: it is 64 bits wide
    and counts bytes in memory, so it does not wrap. *)

From Stdlib Require Import ZArith Lia DecimalString.
From stdpp Require Import base list strings.

Local Open Scope Z_scope.

(** ** Go's integer conversions *)

(** [byte(x)]: the low 8 bits. *)
Definition byte (x : Z) : Z := x mod 256.

(** [uint64(x)]: the low 64 bits. *)
Definition uint64 (x : Z) : Z := x mod 2 ^ 64.

(** [int32(x)]: the low 32 bits, read as a signed number. *)
Definition int32 (x : Z) : Z := (x + 2 ^ 31) mod 2 ^ 32 - 2 ^ 31.

(** [len(b)] as a Go [int]. *)
Definition len {A} (l : list A) : Z := Z.of_nat (length l).

(** An [error] value: [None] is Go's [nil], [Some msg] is
    [errors.New(msg)]. *)
Definition error : Type := option string.

(** * The VarInt codec *)

Module varint.

(** ** encoding/binary (Go standard library)

    [Pack16] .. [Pack64] and [Unpack16] .. [Unpack64] delegate to
    [binary.PutUvarint] and [binary.Uvarint].  Both are embedded here
    from the Go standard library, statement by statement. *)

Definition MaxVarintLen64 : Z := 10.

(** [func PutUvarint(buf []byte, x uint64) int]

<<
    i := 0
    for x >= 0x80 {
        buf[i] = byte(x) | 0x80
        x >>= 7
        i++
    }
    buf[i] = byte(x)
    return i + 1
>>
    The buffer is updated in place: the result is the buffer after the
    call together with the returned count.  An index out of range panics
    ([None]).  The loop counter [fuel] bounds the iterations by the cells
    of [buf]: every iteration advances [i] by one and an [i] beyond the
    buffer panics, so [S (length buf)] iterations are never exhausted
    without a panic (see [varint_proofs.PutUvarint_loop_fuel]). *)
Fixpoint PutUvarint_loop (fuel : nat) (buf : list Z) (x : Z) (i : nat)
  : option (list Z * Z) :=
  match fuel with
  | O => None
  | S fuel' =>
      if 0x80 <=? x then
        if decide (i < length buf)%nat
        then PutUvarint_loop fuel'
               (<[i := Z.lor (byte x) 0x80]> buf) (Z.shiftr x 7) (S i)
        else None
      else
        if decide (i < length buf)%nat
        then Some (<[i := byte x]> buf, Z.of_nat i + 1)
        else None
  end.

Definition PutUvarint (buf : list Z) (x : Z) : option (list Z * Z) :=
  PutUvarint_loop (S (length buf)) buf x 0.

(** [func Uvarint(buf []byte) (uint64, int)]

<<
    var x uint64
    var s uint
    for i, b := range buf {
        if i == MaxVarintLen64 {
            return 0, -(i + 1) // overflow
        }
        if b < 0x80 {
            if i == MaxVarintLen64-1 && b > 1 {
                return 0, -(i + 1) // overflow
            }
            return x | uint64(b)<<s, i + 1
        }
        x |= uint64(b&0x7f) << s
        s += 7
    }
    return 0, 0
>>
    [Uvarint_loop] is the loop over the bytes not read yet, with the
    loop variables [x], [s] and [i]. *)
Fixpoint Uvarint_loop (buf : list Z) (x s i : Z) : Z * Z :=
  match buf with
  | [] => (0, 0)
  | b :: rest =>
      if i =? MaxVarintLen64 then (0, - (i + 1))
      else if b <? 0x80 then
        if (i =? MaxVarintLen64 - 1) && (1 <? b) then (0, - (i + 1))
        else (Z.lor x (uint64 (Z.shiftl b s)), i + 1)
      else
        Uvarint_loop rest
          (Z.lor x (uint64 (Z.shiftl (Z.land b 0x7f) s))) (s + 7) (i + 1)
  end.

Definition Uvarint (buf : list Z) : Z * Z := Uvarint_loop buf 0 0 0.

(** ** VarInt.go *)

(** [make([]byte, n)] *)
Definition make (n : nat) : list Z := replicate n 0.

(** [func Pack8(n uint8) *[]byte] *)
Definition Pack8 (n : Z) : list Z :=
  if n <? 128 then [n] else [n; 0x01].

(** [func Pack16(n uint16) *[]byte]; [None] is a panic. *)
Definition Pack16 (n : Z) : option (list Z) :=
  match PutUvarint (make 3) (uint64 n) with
  | Some (buf, w) => Some (take (Z.to_nat w) buf)
  | None => None
  end.

(** [func Pack32(n uint32) *[]byte] *)
Definition Pack32 (n : Z) : option (list Z) :=
  match PutUvarint (make 5) (uint64 n) with
  | Some (buf, w) => Some (take (Z.to_nat w) buf)
  | None => None
  end.

(** [func Pack64(n uint64) *[]byte] *)
Definition Pack64 (n : Z) : option (list Z) :=
  match PutUvarint (make 10) n with
  | Some (buf, w) => Some (take (Z.to_nat w) buf)
  | None => None
  end.

(** [func Unpack8(b *[]byte) (uint8, int, error)] *)
Definition Unpack8 (blob : list Z) : Z * Z * error :=
  match blob with
  | [] => (0, 0, Some "varint: buf has zero length"%string)
  | b0 :: tl =>
      if b0 <? 128 then (b0, 1, None)
      else
        match tl with
        | [] => (0, 0, Some "varint: buf too small"%string)
        | b1 :: _ =>
            if negb (b1 =? 0x01)
            then (0, 0, Some "varint: encoded integer greater than 255 (uint8)"%string)
            else (b0, 1, None)
        end
  end.

(** [func Unpack16(b *[]byte) (uint16, int, error)] *)
Definition Unpack16 (b : list Z) : Z * Z * error :=
  let '(n, r) := Uvarint b in
  if r =? 0 then (0, 0, Some "Fatal Error: buf too small"%string)
  else if r <? 0 then
    (0, 0, Some "VarInt encoded integer greater than 18446744073709551615 (uint64)"%string)
  else if 65535 <? n then
    (0, 0, Some "VarInt encoded integer greater than 65535 (uint16)"%string)
  else (n mod 2 ^ 16, r, None).

(** [func Unpack32(b *[]byte) (uint32, int, error)] *)
Definition Unpack32 (b : list Z) : Z * Z * error :=
  let '(n, r) := Uvarint b in
  if r =? 0 then (0, 0, Some "Fatal Error: buf too small"%string)
  else if r <? 0 then
    (0, 0, Some "VarInt encoded integer greater than 18446744073709551615 (uint64)"%string)
  else if 4294967295 <? n then
    (0, 0, Some "VarInt encoded integer greater than 4294967295 (uint32)"%string)
  else (n mod 2 ^ 32, r, None).

(** [func Unpack64(b *[]byte) (uint64, int, error)] *)
Definition Unpack64 (b : list Z) : Z * Z * error :=
  let '(n, r) := Uvarint b in
  if r =? 0 then (0, 0, Some "Fatal Error: buf too small"%string)
  else if r <? 0 then
    (0, 0, Some "VarInt encoded integer greater than 18446744073709551615 (uint64)"%string)
  else (n, r, None).

End varint.

(** * The document encoder *)

(** ** reflect (Go standard library)

    The encoder inspects its input through package [reflect].  The part
    of [reflect] it uses is embedded here: the kinds, and below, on the
    values of the model, [IsNil], [Kind], [Elem] and [Type().String()]. *)
Module reflect.

Inductive Kind : Set :=
| Invalid | Bool | Int | Int8 | Int16 | Int32 | Int64
| Uint | Uint8 | Uint16 | Uint32 | Uint64 | Uintptr
| Float32 | Float64 | Complex64 | Complex128
| Array | Chan | Func | Interface | Map | Ptr | Slice
| String | Struct | UnsafePointer.

(** The kinds of the values that have no constructor of their own in the
    model ([bson.VOther]): every kind but [Invalid] and [Interface], which
    no dynamic value has, and but those of [bool], [int32], [int64],
    [float64], [string], maps, slices and pointers. *)
Inductive OtherKind : Set :=
| OInt | OInt8 | OInt16 | OUint | OUint8 | OUint16 | OUint32 | OUint64
| OUintptr | OFloat32 | OComplex64 | OComplex128
| OArray | OChan | OFunc | OStruct | OUnsafePointer.

Definition of_other (k : OtherKind) : Kind :=
  match k with
  | OInt => Int | OInt8 => Int8 | OInt16 => Int16
  | OUint => Uint | OUint8 => Uint8 | OUint16 => Uint16
  | OUint32 => Uint32 | OUint64 => Uint64 | OUintptr => Uintptr
  | OFloat32 => Float32 | OComplex64 => Complex64
  | OComplex128 => Complex128 | OArray => Array | OChan => Chan
  | OFunc => Func | OStruct => Struct | OUnsafePointer => UnsafePointer
  end.

#[global] Instance Kind_eq_dec : EqDecision Kind.
Proof. solve_decision. Defined.

End reflect.

Module bson.

(** ** The named types of package bson *)

(** Modelled from the spec: the declaration of [ObjectId] is in a file of
    package [bson] that is not part of the sources at hand; the spec has
    it as "exactly 12 raw bytes, used for an opaque identifier type", and
    [writeValue] slices it ([vv[:]]) as an array of bytes. *)
Definition ObjectId : Type := list Z.

(** Modelled from the spec: the declaration of [Datetime] is not part of
    the sources at hand; the spec has it as a "64-bit signed integer,
    milliseconds-since-epoch", and [writeValue] converts it by
    [int64(vv)]. *)
Definition Datetime : Type := Z.

(** Modelled from the spec: the declaration of [Timestamp] is not part of
    the sources at hand; the spec has it as a "64-bit signed integer",
    and [writeValue] converts it by [int64(vv)]. *)
Definition Timestamp : Type := Z.

(** ** Values

    What an [interface{}] handed to the encoder can hold.  Containers are
    [map[string]interface{}] (as the comment of [writeMap] has it) and
    [[]interface{}]; a map is the sequence of its entries in the order
    [MapKeys] returns them, which Go leaves open.  A [float64] is its
    IEEE-754 bit pattern ([math.Float64bits]); the encoder reads nothing
    else of it. *)
#[warnings="-register-all"]
Inductive value : Type :=
| VNil                                    (* the nil interface *)
| VFloat64 (bits : Z)                     (* float64 *)
| VString (s : string)                    (* string *)
| VBool (b : bool)                        (* bool *)
| VInt32 (n : Z)                          (* int32 *)
| VInt64 (n : Z)                          (* int64 *)
| VSlice (elems : list value)             (* []interface{}, not nil *)
| VMap (fields : list (string * value))   (* map[string]interface{}, not nil *)
| VObjectId (vv : ObjectId)               (* bson.ObjectId *)
| VDatetime (vv : Datetime)               (* bson.Datetime *)
| VTimestamp (vv : Timestamp)             (* bson.Timestamp *)
| VNilSlice                               (* []interface{}(nil) *)
| VNilMap                                 (* map[string]interface{}(nil) *)
| VPtr (target : value)                   (* a pointer to [target], not nil *)
| VNilPtr (ty : string)                   (* a nil pointer of type [ty] *)
| VOther (k : reflect.OtherKind) (ty : string).
                                          (* any other value: its kind and
                                             the name of its type *)

(** [reflect.ValueOf(v).Kind()] *)
Definition Kind (v : value) : reflect.Kind :=
  match v with
  | VNil => reflect.Invalid
  | VFloat64 _ => reflect.Float64
  | VString _ => reflect.String
  | VBool _ => reflect.Bool
  | VInt32 _ => reflect.Int32
  | VInt64 _ | VDatetime _ | VTimestamp _ => reflect.Int64
  | VSlice _ | VNilSlice => reflect.Slice
  | VMap _ | VNilMap => reflect.Map
  | VObjectId _ => reflect.Array
  | VPtr _ | VNilPtr _ => reflect.Ptr
  | VOther k _ => reflect.of_other k
  end.

(** [reflect.ValueOf(v).Type().String()] *)
Fixpoint Type_String (v : value) : string :=
  match v with
  | VNil => "interface {}"
  | VFloat64 _ => "float64"
  | VString _ => "string"
  | VBool _ => "bool"
  | VInt32 _ => "int32"
  | VInt64 _ => "int64"
  | VSlice _ | VNilSlice => "[]interface {}"
  | VMap _ | VNilMap => "map[string]interface {}"
  | VObjectId _ => "bson.ObjectId"
  | VDatetime _ => "bson.Datetime"
  | VTimestamp _ => "bson.Timestamp"
  | VPtr t => "*" +:+ Type_String t
  | VNilPtr ty => ty
  | VOther _ ty => ty
  end.

(** [reflect.ValueOf(v).IsNil()].  [IsNil] panics ([None]) unless the
    kind is [Chan], [Func], [Interface], [Map], [Ptr], [Slice] or
    [UnsafePointer]; on the zero [Value], which [reflect.ValueOf(nil)]
    returns, it panics as well. *)
Definition IsNil (v : value) : option bool :=
  match v with
  | VNilSlice | VNilMap | VNilPtr _ => Some true
  | VSlice _ | VMap _ | VPtr _ => Some false
  | VOther k _ =>
      match k with
      | reflect.OChan | reflect.OFunc | reflect.OUnsafePointer => Some false
      | _ => None
      end
  | _ => None
  end.

(** [rv.Elem()] of a pointer that is not nil. *)
Definition Elem (v : value) : value :=
  match v with
  | VPtr t => t
  | _ => v
  end.

(** The entries [v.MapKeys()] and [v.MapIndex(k)] give, of a value of
    kind [Map]; a nil map has none. *)
Definition MapEntries (v : value) : list (string * value) :=
  match v with
  | VMap fields => fields
  | _ => []
  end.

(** ** Strings *)

(** The bytes of a Go string, as [append(b, s...)] appends them. *)
Definition bytes_of (s : string) : list Z :=
  (fun c => Z.of_N (Ascii.N_of_ascii c)) <$> String.list_ascii_of_string s.

(** [strconv.Itoa(i)]: the decimal representation. *)
Definition Itoa (i : Z) : string :=
  DecimalString.NilZero.string_of_int (Z.to_int i).

(** ** The writer *)

(** Modelled from the spec: the constants [sizeofInt32] and [sizeofInt64]
    are declared in a file of package [bson] that is not part of the
    sources at hand; the spec has the header and the Int32 payload at 4
    bytes and the 64-bit payloads at 8. *)
Definition sizeofInt32 : Z := 4.
Definition sizeofInt64 : Z := 8.

(** [type writer struct { bson []byte }] *)
Record writer : Type := Writer { bson_ : list Z }.

(** [w.bson = append(w.bson, bs...)] *)
Definition append (w : writer) (bs : list Z) : writer :=
  Writer (bson_ w ++ bs).

(** [w.bson[i] = b].  The cell is there wherever the encoder stores:
    see [writeMap]. *)
Definition store (w : writer) (i : nat) (b : Z) : writer :=
  Writer (<[i := b]> (bson_ w)).

Definition writeType (typ : Z) (w : writer) : Z * writer :=
  (1, append w [typ]).

Definition writeBool (b : bool) (w : writer) : Z * writer :=
  if b then (1, append w [0x01]) else (1, append w [0x00]).

Definition writeBytes (b : list Z) (w : writer) : Z * writer :=
  (len b, append w b).

Definition writeCstring (s : string) (w : writer) : Z * writer :=
  let w := append w (bytes_of s) in
  let w := append w [0] in
  (len (bytes_of s) + 1, w).

Definition writeInt32 (v : Z) (w : writer) : Z * writer :=
  (sizeofInt32,
   append w [byte v; byte (Z.shiftr v 8); byte (Z.shiftr v 16);
             byte (Z.shiftr v 24)]).

Definition writeInt64 (v : Z) (w : writer) : Z * writer :=
  (sizeofInt64,
   append w [byte v; byte (Z.shiftr v 8); byte (Z.shiftr v 16);
             byte (Z.shiftr v 24); byte (Z.shiftr v 32);
             byte (Z.shiftr v 40); byte (Z.shiftr v 48);
             byte (Z.shiftr v 56)]).

(** [writeFloat64(f)]: [f] is given by [math.Float64bits(f)]. *)
Definition writeFloat64 (bits : Z) (w : writer) : Z * writer :=
  let v := bits in
  (sizeofInt64,
   append w [byte v; byte (Z.shiftr v 8); byte (Z.shiftr v 16);
             byte (Z.shiftr v 24); byte (Z.shiftr v 32);
             byte (Z.shiftr v 40); byte (Z.shiftr v 48);
             byte (Z.shiftr v 56)]).

(** ** writeMap, writeSlice and writeValue

    The three functions call each other.  [writeMap] and [writeSlice]
    are written first, over the [writeValue] they call; [writeValue]
    then closes the recursion.  Each returns Go's pair of a count and an
    error, and the writer after the call. *)
Section containers.

Variable writeValue : string -> value -> writer -> (Z * error) * writer.

(** [for _, k := range keys { ... }] of [writeMap] *)
Fixpoint writeMap_range (keys : list (string * value)) (count : Z)
    (w : writer) : (Z * error) * writer :=
  match keys with
  | [] => ((count, None), w)
  | (k, v) :: keys' =>
      let '((n, err), w) := writeValue k v w in
      match err with
      | Some _ => ((0, err), w)
      | None => writeMap_range keys' (count + n) w
      end
  end.

(** [func (w *writer) writeMap(v reflect.Value) (int, error)];
    [entries] are [v]'s.  The four cells stored into at the end were
    appended at the start, and the writer only grows in between
    ([bson_proofs.writeValue_appends]): the stores never panic. *)
Definition writeMap_ (entries : list (string * value)) (w : writer)
  : (Z * error) * writer :=
  let off := length (bson_ w) in
  let w := append w [0; 0; 0; 0] in
  let count := sizeofInt32 + 1 in
  let '((count, err), w) := writeMap_range entries count w in
  match err with
  | Some _ => ((0, err), w)
  | None =>
      let w := append w [0] in
      let w := store w off (byte count) in
      let w := store w (off + 1) (byte (Z.shiftr count 8)) in
      let w := store w (off + 2) (byte (Z.shiftr count 16)) in
      let w := store w (off + 3) (byte (Z.shiftr count 24)) in
      ((count, None), w)
  end.

(** [for i, n := 0, v.Len(); i < n; i++ { ... }] of [writeSlice], from
    index [i] on *)
Fixpoint writeSlice_range (elems : list value) (i : Z) (count : Z)
    (w : writer) : (Z * error) * writer :=
  match elems with
  | [] => ((count, None), w)
  | v :: elems' =>
      let '((n, err), w) := writeValue (Itoa i) v w in
      match err with
      | Some _ => ((0, err), w)
      | None => writeSlice_range elems' (i + 1) (count + n) w
      end
  end.

(** [func (w *writer) writeSlice(v reflect.Value) (int, error)] *)
Definition writeSlice_ (elems : list value) (w : writer)
  : (Z * error) * writer :=
  let off := length (bson_ w) in
  let w := append w [0; 0; 0; 0] in
  let count := sizeofInt32 + 1 in
  let '((count, err), w) := writeSlice_range elems 0 count w in
  match err with
  | Some _ => ((0, err), w)
  | None =>
      let w := append w [0] in
      let w := store w off (byte count) in
      let w := store w (off + 1) (byte (Z.shiftr count 8)) in
      let w := store w (off + 2) (byte (Z.shiftr count 16)) in
      let w := store w (off + 3) (byte (Z.shiftr count 24)) in
      ((count, None), w)
  end.

End containers.

(** [func (w *writer) writeValue(ename string, v reflect.Value) (int, error)].
    [v] is an element of a map or of a slice of [interface{}]: [VNil] is
    the case [v.IsNil()], the three named types are the cases of the type
    switch, and the rest is the switch on [v.Elem().Kind()]. *)
Fixpoint writeValue (ename : string) (v : value) (w : writer) {struct v}
  : (Z * error) * writer :=
  let count := 0 in
  match v with
  | VNil =>
      let '(n, w) := writeType 0x0a w in let count := count + n in
      let '(n, w) := writeCstring ename w in let count := count + n in
      ((count, None), w)
  | VObjectId vv =>
      let '(n, w) := writeType 0x07 w in let count := count + n in
      let '(n, w) := writeCstring ename w in let count := count + n in
      let '(n, w) := writeBytes vv w in let count := count + n in
      ((count, None), w)
  | VDatetime vv =>
      let '(n, w) := writeType 0x09 w in let count := count + n in
      let '(n, w) := writeCstring ename w in let count := count + n in
      let '(n, w) := writeInt64 vv w in let count := count + n in
      ((count, None), w)
  | VTimestamp vv =>
      let '(n, w) := writeType 0x11 w in let count := count + n in
      let '(n, w) := writeCstring ename w in let count := count + n in
      let '(n, w) := writeInt64 vv w in let count := count + n in
      ((count, None), w)
  | VFloat64 f =>
      let '(n, w) := writeType 0x01 w in let count := count + n in
      let '(n, w) := writeCstring ename w in let count := count + n in
      let '(n, w) := writeFloat64 f w in let count := count + n in
      ((count, None), w)
  | VString s =>
      let '(n, w) := writeType 0x02 w in let count := count + n in
      let '(n, w) := writeCstring ename w in let count := count + n in
      let sz := len (bytes_of s) + 1 in
      let '(n, w) := writeInt32 (int32 sz) w in let count := count + n in
      let w := append w (bytes_of s) in
      let w := append w [0] in
      let count := count + sz in
      ((count, None), w)
  | VBool b =>
      let '(n, w) := writeType 0x08 w in let count := count + n in
      let '(n, w) := writeCstring ename w in let count := count + n in
      let '(n, w) := writeBool b w in let count := count + n in
      ((count, None), w)
  | VInt32 i =>
      let '(n, w) := writeType 0x10 w in let count := count + n in
      let '(n, w) := writeCstring ename w in let count := count + n in
      let '(n, w) := writeInt32 (int32 i) w in let count := count + n in
      ((count, None), w)
  | VInt64 i =>
      let '(n, w) := writeType 0x12 w in let count := count + n in
      let '(n, w) := writeCstring ename w in let count := count + n in
      let '(n, w) := writeInt64 i w in let count := count + n in
      ((count, None), w)
  | VSlice elems =>
      let '(n, w) := writeType 0x04 w in let count := count + n in
      let '(n, w) := writeCstring ename w in let count := count + n in
      let '((n, err), w) := writeSlice_ writeValue elems w in
      match err with
      | Some _ => ((0, err), w)
      | None => let count := count + n in ((count, None), w)
      end
  | VNilSlice =>
      let '(n, w) := writeType 0x04 w in let count := count + n in
      let '(n, w) := writeCstring ename w in let count := count + n in
      let '((n, err), w) := writeSlice_ writeValue [] w in
      match err with
      | Some _ => ((0, err), w)
      | None => let count := count + n in ((count, None), w)
      end
  | VMap entries =>
      let '(n, w) := writeType 0x03 w in let count := count + n in
      let '(n, w) := writeCstring ename w in let count := count + n in
      let '((n, err), w) := writeMap_ writeValue entries w in
      match err with
      | Some _ => ((0, err), w)
      | None => let count := count + n in ((count, None), w)
      end
  | VNilMap =>
      let '(n, w) := writeType 0x03 w in let count := count + n in
      let '(n, w) := writeCstring ename w in let count := count + n in
      let '((n, err), w) := writeMap_ writeValue [] w in
      match err with
      | Some _ => ((0, err), w)
      | None => let count := count + n in ((count, None), w)
      end
  | VPtr _ | VNilPtr _ | VOther _ _ =>
      ((0, Some ("bson: unsupported type: " +:+ Type_String v)), w)
  end.

Definition writeMap (v : value) : writer -> (Z * error) * writer :=
  writeMap_ writeValue (MapEntries v).

(** [v.Index(i)] for [i] below [v.Len()]: the elements of a value of
    kind [Slice]; a nil slice has none. *)
Definition SliceElems (v : value) : list value :=
  match v with
  | VSlice elems => elems
  | _ => []
  end.

Definition writeSlice (v : value) : writer -> (Z * error) * writer :=
  writeSlice_ writeValue (SliceElems v).

(** ** encode *)

(** What a call of [encode] does: it returns Go's pair of the bytes and
    the error, or it panics. *)
Inductive outcome : Type :=
| Return (b : list Z) (err : error)
| Panic.

(** [func encode(v interface{}) ([]byte, error)].  A [nil] slice of bytes
    is the empty list. *)
Definition encode (v : value) : outcome :=
  let rv := v in
  match IsNil rv with
  | None => Panic
  | Some true =>
      Return []
        (Some ("bson: error calling MarshalJSON for type "
               +:+ Type_String rv +:+ ": was nil"))
  | Some false =>
      let rv := if decide (Kind rv = reflect.Ptr) then Elem rv else rv in
      let w := Writer [] in
      match Kind rv with
      | reflect.Map =>
          let '((_, err), w) := writeMap rv w in
          Return (bson_ w) err
      | _ =>
          Return []
            (Some ("bson: error calling MarshalJSON for type "
                   +:+ Type_String rv +:+ ": unsupported"))
      end
  end.

End bson.

(** * The VarInt wire format, as the spec words it *)

Module varint_spec.

(** ** The standard base-128 encoding, in the words of the spec

    "Each byte holds 7 payload bits (least-significant group first) plus
    a continuation flag in the high bit; encoding uses the minimal number
    of bytes (no trailing zero groups)". *)

(** The number a sequence of 7-bit groups stands for. *)
Fixpoint groups_value (bs : list Z) : Z :=
  match bs with
  | [] => 0
  | b :: bs' => b mod 128 + 128 * groups_value bs'
  end.

Definition std_varint (n : Z) (bs : list Z) : Prop :=
  bs <> []
  /\ Forall (fun b => 0 <= b < 256) bs
  /\ (forall (i : nat) (b : Z),
        bs !! i = Some b -> (128 <= b <-> (S i < length bs)%nat))
  /\ groups_value bs = n
  /\ (length bs = 1%nat \/ last bs <> Some 0).

(** The same encoding, group by group: how [PutUvarint] produces it. *)
Inductive uvar : Z -> list Z -> Prop :=
| uvar_last x : 0 <= x < 128 -> uvar x [x]
| uvar_more x bs :
    128 <= x -> uvar (x / 128) bs -> uvar x (x mod 128 + 128 :: bs).

End varint_spec.

(** * The document wire format, as the spec words it *)

Module bson_spec.
Import bson.

(** ** Little-endian integers *)

(** The [k] low bytes of [v], least significant first. *)
Fixpoint le_bytes (k : nat) (v : Z) : list Z :=
  match k with
  | O => []
  | S k' => byte v :: le_bytes k' (Z.shiftr v 8)
  end.

(** A sequence of bytes read as a little-endian unsigned number. *)
Fixpoint le_uint (bs : list Z) : Z :=
  match bs with
  | [] => 0
  | b :: bs' => b + 256 * le_uint bs'
  end.

(** The same sequence read as a signed (two's complement) number. *)
Definition le_sint (bs : list Z) : Z :=
  let u := le_uint bs in
  if u <? 2 ^ (8 * len bs - 1) then u else u - 2 ^ (8 * len bs).

(** ** Fields and documents *)

(** A NUL-terminated name. *)
Definition cstring (s : string) : list Z := bytes_of s ++ [0].

(** "Every Document/Array on the wire begins with a 4-byte little-endian
    total-length field whose value equals the exact byte count of the
    encoded unit (length field + all fields + trailing terminator byte),
    and ends with a single 0x00 terminator byte." *)
Definition frame (body : list Z) : list Z :=
  le_bytes 4 (4 + len body + 1) ++ body ++ [0].

Section fields.

Variable field : string -> value -> list Z.

Fixpoint entries_bytes (fs : list (string * value)) : list Z :=
  match fs with
  | [] => []
  | (k, v) :: fs' => field k v ++ entries_bytes fs'
  end.

(** The elements of an Array from index [i] on, under "the decimal
    string representations of the 0-based index". *)
Fixpoint elems_bytes (i : Z) (l : list value) : list Z :=
  match l with
  | [] => []
  | v :: l' => field (Itoa i) v ++ elems_bytes (i + 1) l'
  end.

End fields.

(** "Each field is serialized as: type tag byte, NUL-terminated field
    name, payload (per table)", with the payloads of the table of §4.1
    and the Boolean field the encoder has besides.  A value without a
    wire representation has no bytes. *)
Fixpoint field_bytes (name : string) (v : value) : list Z :=
  match v with
  | VNil => 0x0a :: cstring name
  | VFloat64 f => 0x01 :: cstring name ++ le_bytes 8 f
  | VString s =>
      0x02 :: cstring name
        ++ le_bytes 4 (len (bytes_of s) + 1) ++ bytes_of s ++ [0]
  | VMap fs => 0x03 :: cstring name ++ frame (entries_bytes field_bytes fs)
  | VNilMap => 0x03 :: cstring name ++ frame []
  | VSlice l => 0x04 :: cstring name ++ frame (elems_bytes field_bytes 0 l)
  | VNilSlice => 0x04 :: cstring name ++ frame []
  | VObjectId vv => 0x07 :: cstring name ++ vv
  | VBool b => 0x08 :: cstring name ++ [if b then 0x01 else 0x00]
  | VDatetime n => 0x09 :: cstring name ++ le_bytes 8 n
  | VInt32 n => 0x10 :: cstring name ++ le_bytes 4 n
  | VTimestamp n => 0x11 :: cstring name ++ le_bytes 8 n
  | VInt64 n => 0x12 :: cstring name ++ le_bytes 8 n
  | VPtr _ | VNilPtr _ | VOther _ _ => []
  end.


(** ** Kinds *)


(** The values under a value: the elements of a slice, the values of a
    map, the target of a pointer. *)
Definition children (v : value) : list value :=
  match v with
  | VSlice l => l
  | VMap fs => fs.*2
  | VPtr t => [t]
  | _ => []
  end.

(** A value every part of which [writeValue] has a case for. *)
Fixpoint handled (v : value) : bool :=
  match v with
  | VSlice l => forallb handled l
  | VMap fs => forallb (fun kv => handled kv.2) fs
  | VPtr _ | VNilPtr _ | VOther _ _ => false
  | _ => true
  end.




(** ** Characters *)




(** ** Supported Value trees *)

(** A name "without embedded NUL". *)
Definition nul_free (s : string) : bool :=
  forallb (fun b => negb (b =? 0)) (bytes_of s).

(** A Value tree built only from the kinds of the table of §4.1, each
    value within the range of its Go type: a [float64] pattern of 64
    bits, a signed integer of its width, an ObjectId of exactly 12 bytes,
    field names without NUL.  A nil map or slice is the empty Document or
    Array. *)
Fixpoint supported (v : value) : bool :=
  match v with
  | VNil | VString _ | VNilMap | VNilSlice => true
  | VFloat64 f => (0 <=? f) && (f <? 2 ^ 64)
  | VInt32 n => (- 2 ^ 31 <=? n) && (n <? 2 ^ 31)
  | VInt64 n | VDatetime n | VTimestamp n => (- 2 ^ 63 <=? n) && (n <? 2 ^ 63)
  | VObjectId vv =>
      (length vv =? 12)%nat && forallb (fun b => (0 <=? b) && (b <? 256)) vv
  | VSlice l => forallb supported l
  | VMap fs => forallb (fun kv => nul_free kv.1 && supported kv.2) fs
  | VBool _ | VPtr _ | VNilPtr _ | VOther _ _ => false
  end.

(** "Array becomes indistinguishable from a Document with numeric-string
    keys": the Value a decoder gives back for a Value, every Array in it
    turned into the Document of its elements under their indices. *)
Section normal.

Variable normalize : value -> value.

Fixpoint normalize_entries (fs : list (string * value))
  : list (string * value) :=
  match fs with
  | [] => []
  | (k, v) :: fs' => (k, normalize v) :: normalize_entries fs'
  end.

Fixpoint normalize_elems (i : Z) (l : list value)
  : list (string * value) :=
  match l with
  | [] => []
  | v :: l' => (Itoa i, normalize v) :: normalize_elems (i + 1) l'
  end.

End normal.

Fixpoint normalize (v : value) : value :=
  match v with
  | VMap fs => VMap (normalize_entries normalize fs)
  | VSlice l => VMap (normalize_elems normalize 0 l)
  | VNilMap | VNilSlice => VMap []
  | _ => v
  end.

(** ** Decode

    The decoder is not in the sources at hand.  The definitions of this
    section model it from §4.1 of the spec, which derives it from the
    wire format as the mechanical inverse of the encoder. *)

(** "Mismatched declared-vs-actual length, truncated buffers, or an
    unrecognized type tag each fail with a distinct MalformedDocument
    error carrying the byte offset"; §7 has the bad terminator besides. *)
Inductive malformed : Type :=
| LengthMismatch | Truncated | BadTerminator | UnknownTag (tag : Z).

Inductive decode_error : Type :=
| MalformedDocument (offset : Z) (reason : malformed).

Inductive result (A : Type) : Type :=
| Ok (a : A)
| Err (e : decode_error).
Arguments Ok {A} a.
Arguments Err {A} e.

(** A Go string from its bytes. *)
Definition string_of_bytes (bs : list Z) : string :=
  String.string_of_list_ascii
    ((fun b => Ascii.ascii_of_N (Z.to_N b)) <$> bs).

(** What a reader returns: the value read, the offset after it and the
    bytes after it. *)
Definition read_result (A : Type) : Type := result (A * Z * list Z).

(** The next [n] bytes. *)
Definition read (n : nat) (off : Z) (bs : list Z) : read_result (list Z) :=
  if decide (n <= length bs)%nat
  then Ok (take n bs, off + Z.of_nat n, drop n bs)
  else Err (MalformedDocument off Truncated).

(** The bytes up to the next NUL, and the bytes after that NUL. *)
Fixpoint read_name (bs : list Z) : option (list Z * list Z) :=
  match bs with
  | [] => None
  | b :: bs' =>
      if b =? 0 then Some ([], bs')
      else match read_name bs' with
           | Some (s, rest) => Some (b :: s, rest)
           | None => None
           end
  end.

Definition read_cstring (off : Z) (bs : list Z) : read_result string :=
  match read_name bs with
  | Some (s, rest) => Ok (string_of_bytes s, off + len s + 1, rest)
  | None => Err (MalformedDocument off Truncated)
  end.

(** A payload of [n] bytes, read by [f]. *)
Definition read_fixed (n : nat) (f : list Z -> value) (off : Z)
    (bs : list Z) : read_result value :=
  match read n off bs with
  | Ok (b, off, rest) => Ok (f b, off, rest)
  | Err e => Err e
  end.

(** The payload of a String: "4-byte little-endian length + UTF-8 bytes +
    NUL", the length counting the NUL. *)
Definition read_string (off : Z) (bs : list Z) : read_result value :=
  match read 4 off bs with
  | Err e => Err e
  | Ok (l, off1, rest) =>
      let n := le_uint l in
      if n <? 1 then Err (MalformedDocument off LengthMismatch)
      else
        match read (Z.to_nat n) off1 rest with
        | Err e => Err e
        | Ok (b, off2, rest) =>
            match last b with
            | Some 0 =>
                Ok (VString (string_of_bytes (take (Z.to_nat n - 1) b)),
                    off2, rest)
            | _ => Err (MalformedDocument (off2 - 1) BadTerminator)
            end
        end
      end.

Section decoder.

(** The reader of the fields of a unit up to and including its
    terminator: [decode_fields] below, with less fuel. *)
Variable fields : Z -> list Z -> read_result (list (string * value)).

(** Modelled from the spec: the reader of a unit, missing with the
    decoder.  "Read the 4-byte length, validate the buffer has at least
    that many bytes remaining, [read the fields], and confirm the unit
    is terminated by a single 0x00 at exactly length bytes from the
    header start." *)
Definition decode_unit_with (off : Z) (bs : list Z) : read_result value :=
  match read 4 off bs with
  | Err e => Err e
  | Ok (l, off1, body) =>
      let n := le_uint l in
      if len bs <? n then Err (MalformedDocument off Truncated)
      else
        match bs !! (Z.to_nat (n - 1)) with
        | Some 0 =>
            match fields off1 body with
            | Err e => Err e
            | Ok (fs, off2, rest) =>
                if off2 =? off + n then Ok (VMap fs, off2, rest)
                else Err (MalformedDocument off LengthMismatch)
            end
        | _ => Err (MalformedDocument (off + n - 1) BadTerminator)
        end
  end.

(** Modelled from the spec: the reader of a field, missing with the
    decoder.  "Dispatch on each field's type tag using the table." *)
Definition decode_field_with (tag : Z) (off : Z) (bs : list Z)
  : read_result (string * value) :=
  match read_cstring (off + 1) bs with
  | Err e => Err e
  | Ok (name, off1, rest) =>
      match
        match tag with
        | 0x0A => Ok (VNil, off1, rest)
        | 0x01 => read_fixed 8 (fun b => VFloat64 (le_uint b)) off1 rest
        | 0x02 => read_string off1 rest
        | 0x03 => decode_unit_with off1 rest
        | 0x04 => decode_unit_with off1 rest
        | 0x07 => read_fixed 12 VObjectId off1 rest
        | 0x09 => read_fixed 8 (fun b => VDatetime (le_sint b)) off1 rest
        | 0x10 => read_fixed 4 (fun b => VInt32 (le_sint b)) off1 rest
        | 0x11 => read_fixed 8 (fun b => VTimestamp (le_sint b)) off1 rest
        | 0x12 => read_fixed 8 (fun b => VInt64 (le_sint b)) off1 rest
        | _ => Err (MalformedDocument off (UnknownTag tag))
        end
      with
      | Err e => Err e
      | Ok (v, off2, rest) => Ok ((name, v), off2, rest)
      end
  end.

End decoder.

(** Modelled from the spec: the reader of the fields of a unit, up to
    and including its terminator, missing with the decoder.  Every field
    read takes a byte at least, and [fuel] counts the bytes at
    hand: [Decode] starts with more fuel than there are bytes, and never
    uses it up (see [bson_proofs.decode_fields_fuel]). *)
Fixpoint decode_fields (fuel : nat) (off : Z) (bs : list Z)
  : read_result (list (string * value)) :=
  match fuel with
  | O => Err (MalformedDocument off Truncated)
  | S fuel' =>
      match bs with
      | [] => Err (MalformedDocument off Truncated)
      | tag :: bs' =>
          if tag =? 0 then Ok ([], off + 1, bs')
          else
            match decode_field_with (decode_fields fuel') tag off bs' with
            | Err e => Err e
            | Ok (kv, off1, rest) =>
                match decode_fields fuel' off1 rest with
                | Err e => Err e
                | Ok (fs, off2, rest) => Ok (kv :: fs, off2, rest)
                end
            end
      end
  end.

(** Modelled from the spec: the decoder, [Decode(bytes) → Value | Error],
    is not in the sources at hand; §4.1 derives it from the wire format
    as the mechanical inverse of the encoder.  A nested Array comes back
    as the Document of its fields, keys as read. *)
Definition Decode (bs : list Z) : result value :=
  match decode_unit_with (decode_fields (S (length bs))) 0 bs with
  | Ok (v, _, _) => Ok v
  | Err e => Err e
  end.

(** ** Notions the proofs are stated with *)

(** [wv] writes the field of [v] under [name], whatever the writer. *)
Definition writes_field (wv : string -> value -> writer -> (Z * error) * writer)
    (name : string) (v : value) : Prop :=
  forall w,
    wv name v w
    = ((len (field_bytes name v), None), append w (field_bytes name v)).

(** [wv] fails on [v] with the error of the default case of [writeValue]
    and the count 0, whatever the writer. *)
Definition fails_on (wv : string -> value -> writer -> (Z * error) * writer)
    (name : string) (v : value) : Prop :=
  forall w, exists ty out,
    wv name v w
    = ((0, Some ("bson: unsupported type: " +:+ ty)), append w out).

(** An Array is on the wire the Document of its elements under their
    indices. *)
Fixpoint indexed (i : Z) (l : list value) : list (string * value) :=
  match l with
  | [] => []
  | v :: l' => (Itoa i, v) :: indexed (i + 1) l'
  end.

(** What it is for a field to decode to the Value it was written from:
    its bytes start with a tag other than the terminator, and the field
    reader gives the name and the normal form of the value back, and
    stops at the end of the field. *)
Definition decodes (fuel : nat) (name : string) (v : value) : Prop :=
  forall off rest,
    exists tag body,
      field_bytes name v = tag :: body /\ tag <> 0
      /\ decode_field_with (decode_fields fuel) tag off (body ++ rest)
         = Ok ((name, normalize v), off + len (field_bytes name v), rest).

(** A reader of fields that returns a part of its input. *)
Definition shrinking
    (fields : Z -> list Z -> read_result (list (string * value))) : Prop :=
  forall off bs x off' rest,
    fields off bs = Ok (x, off', rest) -> (length rest <= length bs)%nat.

End bson_spec.

(** * Further notions for the document encoder *)

Module bson_extra_spec.
Import bson.


(** The first value, in the order the encoder writes, that [writeValue]
    has no case for. *)
Section first.

Variable first_unhandled : value -> option value.

Fixpoint first_of_elems (l : list value) : option value :=
  match l with
  | [] => None
  | v :: l' =>
      match first_unhandled v with
      | Some u => Some u
      | None => first_of_elems l'
      end
  end.

Fixpoint first_of_entries (fs : list (string * value)) : option value :=
  match fs with
  | [] => None
  | (_, v) :: fs' =>
      match first_unhandled v with
      | Some u => Some u
      | None => first_of_entries fs'
      end
  end.

End first.

Fixpoint first_unhandled (v : value) : option value :=
  match v with
  | VSlice l => first_of_elems first_unhandled l
  | VMap fs => first_of_entries first_unhandled fs
  | VPtr _ | VNilPtr _ | VOther _ _ => Some v
  | _ => None
  end.



(** The name [a], a NUL, the tag byte of a Null field and the name [b]. *)
Definition spliced (a b : string) : string :=
  a +:+ String (Ascii.ascii_of_N 0) (String (Ascii.ascii_of_N 0x0A) b).

End bson_extra_spec.

(** * Properties of the VarInt codec *)

Module varint_proofs.
Import varint varint_spec.

(** ** Bit operations as arithmetic *)

Lemma lor_shiftl_add a b s :
  0 <= s -> 0 <= a < 2 ^ s -> 0 <= b ->
  Z.lor a (Z.shiftl b s) = a + b * 2 ^ s.
Proof.
  intros Hs Ha Hb.
  rewrite <- Z.lxor_lor, <- Z.add_nocarry_lxor, Z.shiftl_mul_pow2; auto.
  all: apply Z.bits_inj'; intros n Hn; rewrite Z.land_spec, Z.bits_0.
  all: destruct (Z.lt_ge_cases n s) as [Hlt|Hge].
  all: try (rewrite Z.shiftl_spec_low by lia; apply andb_false_r).
  all: assert (Ht : Z.testbit a n = false)
      by (apply Z.testbit_false; [lia|];
          rewrite Z.div_small; [reflexivity|];
          split; [lia|]; apply Z.lt_le_trans with (2 ^ s); [lia|];
          apply Z.pow_le_mono_r; lia).
  all: now rewrite Ht.
Qed.

Lemma byte_lor_0x80 x : Z.lor (byte x) 0x80 = x mod 128 + 128.
Proof.
  unfold byte.
  assert (Hy : 0 <= x mod 256 < 256) by (apply Z.mod_pos_bound; lia).
  rewrite <- (Z.mod_mod_divide x 256 128) by (now exists 2).
  generalize dependent (x mod 256); intros y Hy.
  assert (Hall : forallb (fun n => Z.lor (Z.of_nat n) 0x80
                             =? Z.of_nat n mod 128 + 128) (seq 0 256) = true)
    by (vm_compute; reflexivity).
  rewrite forallb_forall in Hall.
  specialize (Hall (Z.to_nat y)).
  rewrite Z2Nat.id in Hall by lia.
  apply Z.eqb_eq, Hall, in_seq; lia.
Qed.

Lemma land_0x7f b : 0 <= b -> Z.land b 0x7f = b mod 128.
Proof. intros Hb. change 0x7f with (Z.ones 7). now rewrite Z.land_ones. Qed.

(** ** [PutUvarint] writes the standard encoding *)

Lemma uvar_nonneg x bs : uvar x bs -> 0 <= x.
Proof. destruct 1; lia. Qed.

Lemma uvar_length x bs (k : nat) :
  uvar x bs -> x < 128 ^ Z.of_nat k -> (1 <= k)%nat -> (length bs <= k)%nat.
Proof.
  intros H; revert k; induction H as [x Hx|x bs Hx H IH]; intros k Hk Hk1.
  - simpl; lia.
  - destruct k as [|k]; [lia|]. simpl.
    rewrite Nat2Z.inj_succ, Z.pow_succ_r in Hk by lia.
    assert (x / 128 < 128 ^ Z.of_nat k)
      by (apply Z.div_lt_upper_bound; lia).
    destruct k as [|k]; [simpl in *; lia|].
    specialize (IH (S k)); lia.
Qed.

Lemma uvar_std x bs : uvar x bs -> std_varint x bs.
Proof.
  induction 1 as [x Hx|x bs Hx H (Hne & Hran & Hflag & Hval & Hmin)];
    refine (conj _ (conj _ (conj _ (conj _ _)))); simpl.
  - easy.
  - repeat constructor; lia.
  - intros [|i] b Hb; simpl in *; [|easy].
    injection Hb as <-. lia.
  - rewrite Z.mod_small; lia.
  - now left.
  - easy.
  - constructor; [|assumption].
    pose proof (Z.mod_pos_bound x 128); lia.
  - pose proof (Z.mod_pos_bound x 128 ltac:(lia)).
    intros [|i] b Hb; simpl in *.
    + injection Hb as <-. destruct bs; [easy|simpl; lia].
    + apply Hflag in Hb. lia.
  - rewrite Hval. rewrite <- Z.add_mod_idemp_r, Z.mod_same, Z.add_0_r by lia.
    rewrite Z.mod_mod by lia.
    pose proof (Z.div_mod x 128 ltac:(lia)). lia.
  - right. destruct bs as [|b bs]; [easy|].
    change (last (x mod 128 + 128 :: b :: bs)) with (last (b :: bs)).
    destruct Hmin as [Hl|Hl]; [|assumption].
    destruct bs; [|simpl in Hl; lia].
    simpl. inversion H as [y Hy|y bs' Hy Hu]; subst; intros [= E].
    + assert (x / 128 <> 0)
        by (intros E'; apply Z.div_small_iff in E'; lia).
      lia.
    + inversion Hu.
Qed.

(** Once the iterations outnumber the cells from [i] on, one more makes
    no difference: the loop has returned or panicked before. *)
Lemma PutUvarint_loop_fuel (fuel : nat) :
  forall (buf : list Z) (x : Z) (i : nat),
    (length buf < i + fuel)%nat ->
    PutUvarint_loop (S fuel) buf x i = PutUvarint_loop fuel buf x i.
Proof.
  induction fuel as [|fuel IH]; intros buf x i Hlt.
  - simpl. destruct (decide (i < length buf)%nat); [lia|].
    now destruct (0x80 <=? x).
  - change (PutUvarint_loop (S (S fuel)) buf x i)
      with (if 0x80 <=? x then
              if decide (i < length buf)%nat
              then PutUvarint_loop (S fuel)
                     (<[i := Z.lor (byte x) 0x80]> buf) (Z.shiftr x 7) (S i)
              else None
            else
              if decide (i < length buf)%nat
              then Some (<[i := byte x]> buf, Z.of_nat i + 1)
              else None).
    rewrite IH by (rewrite length_insert; lia). reflexivity.
Qed.

(** The standard encoding of a number is one sequence of bytes. *)
Lemma uvar_zero bs : uvar 0 bs -> bs = [0].
Proof. inversion 1; [reflexivity|lia]. Qed.

Lemma uvar_functional x bs bs' : uvar x bs -> uvar x bs' -> bs = bs'.
Proof.
  intros H; revert bs'; induction H as [x Hx|x bs Hx H IH]; intros bs' H';
    inversion H'; subst; try lia; [reflexivity|].
  f_equal. now apply IH.
Qed.

Lemma std_uvar bs : forall n, std_varint n bs -> uvar n bs.
Proof.
  induction bs as [|b bs IH]; intros n (Hne & Hran & Hflag & Hval & Hmin);
    [contradiction|].
  apply Forall_cons in Hran as [Hb Hran].
  pose proof (Hflag 0%nat b eq_refl) as Hb0. simpl in Hb0, Hval.
  destruct bs as [|b' bs].
  - simpl in *. assert (b < 128) by lia.
    rewrite Z.mod_small in Hval by lia.
    replace n with b by lia. constructor; lia.
  - assert (Hbig : 128 <= b) by (apply Hb0; simpl; lia).
    set (m := groups_value (b' :: bs)) in *.
    assert (Hm : uvar m (b' :: bs)).
    { apply IH.
      refine (conj _ (conj Hran (conj _ (conj eq_refl _))));
        [discriminate| |].
      - intros i c Hc. specialize (Hflag (S i) c Hc). simpl in *. lia.
      - right. destruct Hmin as [Hl|Hl]; [discriminate Hl|exact Hl]. }
    assert (Hmpos : 1 <= m).
    { pose proof (uvar_nonneg _ _ Hm).
      destruct (Z.eq_dec m 0) as [E|]; [|lia].
      rewrite E in Hm. apply uvar_zero in Hm.
      destruct Hmin as [Hl|Hl]; [discriminate Hl|].
      rewrite Hm in Hl. now destruct Hl. }
    assert (Hbm : b mod 128 = b - 128).
    { rewrite <- (Z.mod_small (b - 128) 128) by lia.
      replace b with (b - 128 + 1 * 128) at 1 by lia.
      apply Z.mod_add. lia. }
    rewrite Hbm in Hval.
    assert (Hq : n / 128 = m).
    { rewrite <- Hval, Z.mul_comm, Z.div_add by lia.
      rewrite Z.div_small by lia. lia. }
    assert (Hr : n mod 128 = b - 128).
    { rewrite <- Hval, Z.mul_comm, Z.mod_add by lia.
      apply Z.mod_small. lia. }
    replace b with (n mod 128 + 128) by lia.
    constructor; [lia|]. now rewrite Hq.
Qed.

Lemma std_varint_unique n bs bs' :
  std_varint n bs -> std_varint n bs' -> bs = bs'.
Proof.
  intros H H'. eapply uvar_functional; apply std_uvar; eassumption.
Qed.

(** [PutUvarint] leaves the cells outside [i .. i + length bs) alone and
    neither panics nor runs out of iterations when the cells are there. *)
Lemma PutUvarint_loop_ok (k : nat) :
  forall (fuel : nat) (buf : list Z) (x : Z) (i : nat),
    0 <= x < 128 ^ Z.of_nat k -> (1 <= k)%nat ->
    (i + k <= length buf)%nat -> (k <= fuel)%nat ->
    exists bs,
      PutUvarint_loop fuel buf x i
      = Some (take i buf ++ bs ++ drop (i + length bs) buf,
              Z.of_nat i + len bs)
      /\ uvar x bs /\ (length bs <= k)%nat.
Proof.
  induction k as [|k IH]; intros fuel buf x i Hx Hk Hlen Hfuel; [lia|].
  destruct fuel as [|fuel]; [lia|]. simpl.
  destruct (decide (i < length buf)%nat) as [Hi|Hi]; [|lia].
  destruct (Z.leb_spec 0x80 x) as [Hbig|Hsmall].
  - rewrite Nat2Z.inj_succ, Z.pow_succ_r in Hx by lia.
    assert (Hx' : 0 <= x / 128 < 128 ^ Z.of_nat k).
    { split; [apply Z.div_pos; lia|apply Z.div_lt_upper_bound; lia]. }
    destruct k as [|k]; [simpl in Hx'; lia|].
    rewrite Z.shiftr_div_pow2 by lia. change (2 ^ 7) with 128.
    destruct (IH fuel (<[i:=Z.lor (byte x) 128]> buf) (x / 128) (S i))
      as (bs & -> & Hbs & Hl); try lia.
    { rewrite length_insert; lia. }
    exists (x mod 128 + 128 :: bs). split; [|split].
    + f_equal. f_equal.
      * rewrite byte_lor_0x80.
        rewrite (take_S_r _ _ (x mod 128 + 128))
          by (rewrite list_lookup_insert_eq; [reflexivity|lia]).
        rewrite take_insert_ge by lia.
        rewrite drop_insert_lt by lia.
        rewrite <- app_assoc. simpl.
        replace (i + S (length bs))%nat with (S (i + length bs)) by lia.
        reflexivity.
      * unfold len. simpl length. lia.
    + now constructor.
    + simpl; lia.
  - exists [x]. split; [|split].
    + f_equal. f_equal.
      * unfold byte. rewrite Z.mod_small by lia.
        rewrite <- (take_drop i (<[i:=x]> buf)) at 1.
        rewrite take_insert_ge by lia. f_equal.
        rewrite (drop_S _ x i)
          by (rewrite list_lookup_insert_eq; [reflexivity|lia]).
        rewrite drop_insert_lt by lia. simpl.
        replace (i + 1)%nat with (S i) by lia. reflexivity.
    + constructor; lia.
    + simpl; lia.
Qed.

Lemma PutUvarint_make (k : nat) (x : Z) :
  0 <= x < 128 ^ Z.of_nat k -> (1 <= k)%nat ->
  exists bs,
    PutUvarint (make k) x = Some (bs ++ drop (length bs) (make k), len bs)
    /\ uvar x bs /\ (length bs <= k)%nat.
Proof.
  intros Hx Hk. unfold PutUvarint.
  destruct (PutUvarint_loop_ok k (S (length (make k))) (make k) x 0)
    as (bs & E & Hbs & Hl); try (unfold make; rewrite ?length_replicate; lia).
  exists bs. rewrite E. simpl. auto.
Qed.

(** ** [Uvarint] reads the standard encoding back *)

Lemma Uvarint_loop_uvar x bs :
  uvar x bs ->
  forall (rest : list Z) (acc i : Z),
    0 <= i -> i + len bs <= 10 -> 0 <= acc < 2 ^ (7 * i) ->
    acc + x * 2 ^ (7 * i) < 2 ^ 64 ->
    Uvarint_loop (bs ++ rest) acc (7 * i) i
    = (acc + x * 2 ^ (7 * i), i + len bs).
Proof.
  unfold len.
  induction 1 as [x Hx|x bs Hx H IH]; intros rest acc i Hi Hlen Hacc Hlt.
  - simpl in *. unfold MaxVarintLen64.
    destruct (Z.eqb_spec i 10) as [->|_]; [lia|].
    destruct (Z.ltb_spec x 128); [|lia].
    assert (Hp : 0 < 2 ^ (7 * i)) by (apply Z.pow_pos_nonneg; lia).
    assert (Hguard : (i =? 10 - 1) && (1 <? x) = false).
    { destruct (Z.eqb_spec i (10 - 1)) as [->|_]; [|reflexivity].
      destruct (Z.ltb_spec 1 x); [|reflexivity].
      change (2 ^ (7 * (10 - 1))) with (2 ^ 63) in *.
      change (2 ^ 64) with (2 * 2 ^ 63) in *. nia. }
    rewrite Hguard. f_equal.
    unfold uint64.
    rewrite Z.mod_small by (rewrite Z.shiftl_mul_pow2 by lia; nia).
    apply lor_shiftl_add; lia.
  - simpl in *. unfold MaxVarintLen64.
    destruct (Z.eqb_spec i 10) as [->|_]; [lia|].
    pose proof (Z.mod_pos_bound x 128 ltac:(lia)) as Hm.
    destruct (Z.ltb_spec (x mod 128 + 128) 128); [lia|].
    assert (Hp : 0 < 2 ^ (7 * i)) by (apply Z.pow_pos_nonneg; lia).
    assert (Hpow : 2 ^ (7 * (i + 1)) = 128 * 2 ^ (7 * i)).
    { replace (7 * (i + 1)) with (7 + 7 * i) by lia.
      rewrite Z.pow_add_r by lia. reflexivity. }
    assert (Hdm := Z.div_mod x 128 ltac:(lia)).
    assert (Hq : 0 <= x / 128) by (apply Z.div_pos; lia).
    rewrite land_0x7f by lia.
    replace ((x mod 128 + 128) mod 128) with (x mod 128)
      by (rewrite <- Z.add_mod_idemp_r, Z.mod_same, Z.add_0_r, Z.mod_mod;
          lia).
    unfold uint64.
    rewrite Z.mod_small by (rewrite Z.shiftl_mul_pow2 by lia; nia).
    rewrite lor_shiftl_add by lia.
    replace (7 * i + 7) with (7 * (i + 1)) by lia.
    rewrite IH; try lia; rewrite ?Hpow; try nia.
    f_equal; [nia|lia].
Qed.

Lemma Uvarint_uvar x bs :
  uvar x bs -> (length bs <= 10)%nat -> x < 2 ^ 64 ->
  Uvarint bs = (x, len bs).
Proof.
  intros H Hl Hx. unfold Uvarint.
  pose proof (Uvarint_loop_uvar x bs H [] 0 0) as E.
  rewrite app_nil_r in E. change (7 * 0) with 0 in E.
  rewrite E; unfold len; simpl; try lia.
  f_equal; lia.
Qed.

Lemma uvar_len_pos x bs : uvar x bs -> 0 < len bs.
Proof. unfold len; destruct 1; simpl; lia. Qed.

Lemma take_written (bs tail : list Z) :
  take (Z.to_nat (len bs)) (bs ++ tail) = bs.
Proof. unfold len. rewrite Nat2Z.id. apply take_app_length. Qed.

(** What the three wide pack functions have in common. *)
Lemma Pack_make (k : nat) (n : Z) :
  0 <= n < 128 ^ Z.of_nat k -> (1 <= k)%nat ->
  exists bs,
    match PutUvarint (make k) n with
    | Some (buf, w) => Some (take (Z.to_nat w) buf)
    | None => None
    end = Some bs
    /\ uvar n bs /\ (length bs <= k)%nat.
Proof.
  intros Hn Hk. destruct (PutUvarint_make k n Hn Hk) as (bs & -> & Hu & Hl).
  exists bs. now rewrite take_written.
Qed.

(** [Unpack8] accepts the two-byte form, whatever follows it, and reports
    one byte as used. *)
Lemma Unpack8_two_bytes (v : Z) (rest : list Z) :
  128 <= v -> Unpack8 (v :: 0x01 :: rest) = (v, 1, None).
Proof.
  intros Hv. unfold Unpack8.
  destruct (Z.ltb_spec v 128); [lia|]. reflexivity.
Qed.

(** C7: for every uint8 [n], [Pack8 n] is the single byte [n] when
    [n < 128] and the two bytes [n, 0x01] when [n >= 128]; in particular
    [Pack8 5 = [5]] and [Pack8 200 = [200; 1]]; the output never exceeds
    two bytes. *)
Theorem Pack8_bytes (n : Z) (Hn : 0 <= n < 256) :
  (n < 128 -> Pack8 n = [n])
  /\ (128 <= n -> Pack8 n = [n; 0x01])
  /\ Pack8 5 = [5]
  /\ Pack8 200 = [200; 1]
  /\ (length (Pack8 n) <= 2)%nat.
Proof.
  unfold Pack8. repeat split; try reflexivity.
  - intros H. destruct (Z.ltb_spec n 128); [reflexivity|lia].
  - intros H. destruct (Z.ltb_spec n 128); [lia|reflexivity].
  - destruct (n <? 128); simpl; lia.
Qed.

Lemma Pack8_bytes_witness :
  0 <= 200 < 256 /\ 128 <= 200 /\ Pack8 200 = [200; 0x01].
Proof.
  split; [lia|]. split; [lia|].
  apply (Pack8_bytes 200); lia.
Defined.

(** C3: on the buffer [200, 1], whose first byte is at least 128 and
    whose second byte is the marker 0x01, [Unpack8] returns the value 200
    and no error, and reports 1 byte as used, where two were read. *)
Theorem Unpack8_marker_reports_one_byte :
  Unpack8 [200; 0x01] = (200, 1, None)
  /\ Pack8 200 = [200; 0x01]
  /\ len (Pack8 200) = 2.
Proof. repeat split. Qed.

(** C8: for the widths 16, 32 and 64 and every unsigned [n] of the width,
    the pack function returns the minimal standard base-128 encoding of
    [n], of at most 3, 5 and 10 bytes, and the unpack function gives back
    [n], the length of the encoding and no error; in particular
    [Pack16 300 = [0xAC; 0x02]] and
    [Unpack16 [0xAC; 0x02] = (300, 2, nil)]. *)
Theorem Pack_Unpack_wide (n : Z) (Hn : 0 <= n < 2 ^ 64) :
  (n < 2 ^ 16 ->
   exists bs, Pack16 n = Some bs /\ std_varint n bs
              /\ (length bs <= 3)%nat /\ Unpack16 bs = (n, len bs, None))
  /\ (n < 2 ^ 32 ->
      exists bs, Pack32 n = Some bs /\ std_varint n bs
                 /\ (length bs <= 5)%nat /\ Unpack32 bs = (n, len bs, None))
  /\ (exists bs, Pack64 n = Some bs /\ std_varint n bs
                 /\ (length bs <= 10)%nat /\ Unpack64 bs = (n, len bs, None))
  /\ Pack16 300 = Some [0xAC; 0x02]
  /\ Unpack16 [0xAC; 0x02] = (300, 2, None).
Proof.
  assert (Hu64 : uint64 n = n) by (unfold uint64; apply Z.mod_small; lia).
  assert (Hun : forall bs, uvar n bs -> (length bs <= 10)%nat ->
                  exists r, Uvarint bs = (n, r) /\ r = len bs
                            /\ (r =? 0) = false /\ (r <? 0) = false).
  { intros bs Hu Hl. exists (len bs).
    pose proof (uvar_len_pos _ _ Hu).
    rewrite (Uvarint_uvar n bs Hu Hl) by lia. repeat split.
    - apply Z.eqb_neq; lia.
    - apply Z.ltb_ge; lia. }
  split; [|split; [|split; [|split; reflexivity]]].
  - intros H16. unfold Pack16. rewrite Hu64.
    destruct (Pack_make 3 n) as (bs & -> & Hu & Hl);
      [change (128 ^ Z.of_nat 3) with (2 ^ 21); lia|lia|].
    refine (ex_intro _ bs (conj eq_refl (conj (uvar_std _ _ Hu) (conj Hl _)))).
    unfold Unpack16.
    destruct (Hun bs Hu) as (r & -> & -> & -> & ->); [lia|].
    destruct (Z.ltb_spec 65535 n); [lia|].
    rewrite Z.mod_small by lia. reflexivity.
  - intros H32. unfold Pack32. rewrite Hu64.
    destruct (Pack_make 5 n) as (bs & -> & Hu & Hl);
      [change (128 ^ Z.of_nat 5) with (2 ^ 35); lia|lia|].
    refine (ex_intro _ bs (conj eq_refl (conj (uvar_std _ _ Hu) (conj Hl _)))).
    unfold Unpack32.
    destruct (Hun bs Hu) as (r & -> & -> & -> & ->); [lia|].
    destruct (Z.ltb_spec 4294967295 n); [lia|].
    rewrite Z.mod_small by lia. reflexivity.
  - unfold Pack64.
    destruct (Pack_make 10 n) as (bs & -> & Hu & Hl);
      [change (128 ^ Z.of_nat 10) with (2 ^ 70); lia|lia|].
    refine (ex_intro _ bs (conj eq_refl (conj (uvar_std _ _ Hu) (conj Hl _)))).
    unfold Unpack64.
    destruct (Hun bs Hu) as (r & -> & -> & -> & ->); [lia|].
    reflexivity.
Qed.

Lemma Pack_Unpack_wide_witness :
  0 <= 300 < 2 ^ 64 /\ 300 < 2 ^ 16
  /\ exists bs, Pack16 300 = Some bs /\ std_varint 300 bs
                /\ (length bs <= 3)%nat /\ Unpack16 bs = (300, len bs, None).
Proof.
  split; [lia|]. split; [lia|].
  apply (Pack_Unpack_wide 300); lia.
Defined.

End varint_proofs.

(** * Properties of the document encoder *)

Module bson_proofs.
Import bson bson_spec.

(** ** Induction over values *)

Lemma value_children_ind (P : value -> Prop) :
  (forall v, Forall P (children v) -> P v) -> forall v, P v.
Proof.
  intros IH. fix rec 1. intros v. apply IH.
  destruct v as [| | | | | |l|fs| | | | | |t| |]; simpl;
    try (constructor; fail).
  - revert l. fix recl 1. intros [|x l]; constructor; [apply rec|apply recl].
  - revert fs. fix recl 1. intros [|[k x] fs]; constructor;
      [apply rec|apply recl].
  - constructor; [apply rec|constructor].
Qed.

(** ** Little-endian arithmetic *)

Lemma byte_range x : 0 <= byte x < 256.
Proof. unfold byte. apply Z.mod_pos_bound. lia. Qed.

Lemma length_le_bytes k v : length (le_bytes k v) = k.
Proof. revert v; induction k; intros; simpl; auto. Qed.

Lemma le_bytes_range k v : Forall (fun b => 0 <= b < 256) (le_bytes k v).
Proof.
  revert v; induction k; intros; simpl; constructor; auto using byte_range.
Qed.

Lemma pow256 k : 2 ^ (8 * Z.of_nat (S k)) = 256 * 2 ^ (8 * Z.of_nat k).
Proof.
  replace (8 * Z.of_nat (S k)) with (8 + 8 * Z.of_nat k) by lia.
  rewrite Z.pow_add_r by lia. reflexivity.
Qed.

Lemma le_uint_le_bytes k v : le_uint (le_bytes k v) = v mod 2 ^ (8 * Z.of_nat k).
Proof.
  revert v; induction k as [|k IH]; intros v.
  - simpl. now rewrite Z.mod_1_r.
  - cbn [le_bytes le_uint]. rewrite IH, pow256.
    assert (0 < 2 ^ (8 * Z.of_nat k)) by (apply Z.pow_pos_nonneg; lia).
    rewrite Z.shiftr_div_pow2 by lia. change (2 ^ 8) with 256.
    rewrite Z.rem_mul_r by lia. reflexivity.
Qed.

Lemma le_bytes_mod k v : le_bytes k (v mod 2 ^ (8 * Z.of_nat k)) = le_bytes k v.
Proof.
  revert v; induction k as [|k IH]; intros v; [reflexivity|].
  cbn [le_bytes]. rewrite pow256.
  assert (0 < 2 ^ (8 * Z.of_nat k)) by (apply Z.pow_pos_nonneg; lia).
  f_equal.
  - unfold byte. apply Z.mod_mod_divide.
    exists (2 ^ (8 * Z.of_nat k)). lia.
  - rewrite <- (IH (Z.shiftr v 8)). f_equal.
    rewrite !Z.shiftr_div_pow2 by lia. change (2 ^ 8) with 256.
    rewrite Z.rem_mul_r by lia.
    rewrite Z.mul_comm, Z.div_add by lia.
    rewrite (Z.div_small (v mod 256)) by (apply Z.mod_pos_bound; lia).
    reflexivity.
Qed.

Lemma le_bytes_int32 v : le_bytes 4 (int32 v) = le_bytes 4 v.
Proof.
  rewrite <- (le_bytes_mod 4 (int32 v)), <- (le_bytes_mod 4 v). f_equal.
  unfold int32. change (8 * Z.of_nat 4) with 32.
  rewrite Zminus_mod_idemp_l. f_equal. lia.
Qed.

Lemma le_bytes_4 v :
  [byte v; byte (Z.shiftr v 8); byte (Z.shiftr v 16); byte (Z.shiftr v 24)]
  = le_bytes 4 v.
Proof. simpl. rewrite !Z.shiftr_shiftr by lia. reflexivity. Qed.

Lemma le_bytes_8 v :
  [byte v; byte (Z.shiftr v 8); byte (Z.shiftr v 16); byte (Z.shiftr v 24);
   byte (Z.shiftr v 32); byte (Z.shiftr v 40); byte (Z.shiftr v 48);
   byte (Z.shiftr v 56)]
  = le_bytes 8 v.
Proof. simpl. rewrite !Z.shiftr_shiftr by lia. reflexivity. Qed.

(** ** The writer only appends *)

Lemma len_app {A} (l k : list A) : len (l ++ k) = len l + len k.
Proof. unfold len. rewrite length_app. lia. Qed.

Lemma len_cons {A} (x : A) (l : list A) : len (x :: l) = 1 + len l.
Proof. unfold len. simpl length. lia. Qed.

Lemma len_nil (A : Type) : len (@nil A) = 0.
Proof. reflexivity. Qed.

Lemma len_le_bytes k v : len (le_bytes k v) = Z.of_nat k.
Proof. unfold len. now rewrite length_le_bytes. Qed.

Lemma append_append w a b : append (append w a) b = append w (a ++ b).
Proof. unfold append. simpl. now rewrite app_assoc. Qed.

Lemma append_nil w : append w [] = w.
Proof. destruct w. unfold append. simpl. now rewrite app_nil_r. Qed.

(** Storing the header into the four cells appended for it. *)
Lemma store_header w b0 b1 b2 b3 rest :
  let off := length (bson_ w) in
  store (store (store (store (append (append w [0; 0; 0; 0]) rest)
                         off b0) (off + 1) b1) (off + 2) b2) (off + 3) b3
  = append w ([b0; b1; b2; b3] ++ rest).
Proof.
  destruct w as [pre]. unfold store, append. simpl. f_equal.
  rewrite <- !app_assoc.
  rewrite !insert_app_r_alt by lia.
  replace (length pre - length pre)%nat with 0%nat by lia.
  replace (length pre + 1 - length pre)%nat with 1%nat by lia.
  replace (length pre + 2 - length pre)%nat with 2%nat by lia.
  replace (length pre + 3 - length pre)%nat with 3%nat by lia.
  reflexivity.
Qed.

Lemma len_frame body : len (frame body) = 4 + len body + 1.
Proof.
  unfold frame. rewrite !len_app, len_le_bytes. unfold len. simpl. lia.
Qed.

Section ranges.

Variable writeValue' : string -> value -> writer -> (Z * error) * writer.

(** [writeMap] over entries each of which is written as its field. *)
Lemma writeMap_range_ok (fs : list (string * value)) :
  Forall (fun kv => forall w,
            writeValue' kv.1 kv.2 w
            = ((len (field_bytes kv.1 kv.2), None),
               append w (field_bytes kv.1 kv.2))) fs ->
  forall count w,
    writeMap_range writeValue' fs count w
    = ((count + len (entries_bytes field_bytes fs), None),
       append w (entries_bytes field_bytes fs)).
Proof.
  induction 1 as [|[k v] fs Hkv _ IH]; intros count w; simpl.
  - now rewrite append_nil, len_nil, Z.add_0_r.
  - simpl in Hkv. rewrite Hkv, IH, append_append, len_app.
    do 2 f_equal. lia.
Qed.

Lemma writeSlice_range_ok (l : list value) :
  Forall (fun v => forall name w,
            writeValue' name v w
            = ((len (field_bytes name v), None),
               append w (field_bytes name v))) l ->
  forall i count w,
    writeSlice_range writeValue' l i count w
    = ((count + len (elems_bytes field_bytes i l), None),
       append w (elems_bytes field_bytes i l)).
Proof.
  induction 1 as [|v l Hv _ IH]; intros i count w; simpl.
  - now rewrite append_nil, len_nil, Z.add_0_r.
  - rewrite Hv, IH, append_append, len_app.
    do 2 f_equal. lia.
Qed.

(** A range that ends without an error gives rise to a framed unit. *)
Lemma framed (body : list Z) (w : writer) :
  let w' := append (append (append w [0; 0; 0; 0]) body) [0] in
  let count := sizeofInt32 + 1 + len body in
  let off := length (bson_ w) in
  ((count, @None string),
   store (store (store (store w' off (byte count))
                   (off + 1) (byte (Z.shiftr count 8)))
            (off + 2) (byte (Z.shiftr count 16)))
     (off + 3) (byte (Z.shiftr count 24)))
  = ((len (frame body), None), append w (frame body)).
Proof.
  intros w' count off. subst w'.
  rewrite append_append, store_header, le_bytes_4, len_frame.
  unfold frame, count, sizeofInt32.
  replace (4 + 1 + len body) with (4 + len body + 1) by lia. reflexivity.
Qed.

Lemma writeMap_ok (fs : list (string * value)) (w : writer) :
  Forall (fun kv => forall w,
            writeValue' kv.1 kv.2 w
            = ((len (field_bytes kv.1 kv.2), None),
               append w (field_bytes kv.1 kv.2))) fs ->
  writeMap_ writeValue' fs w
  = ((len (frame (entries_bytes field_bytes fs)), None),
     append w (frame (entries_bytes field_bytes fs))).
Proof.
  intros H. unfold writeMap_. rewrite (writeMap_range_ok fs H).
  apply framed.
Qed.

Lemma writeSlice_ok (l : list value) (w : writer) :
  Forall (fun v => forall name w,
            writeValue' name v w
            = ((len (field_bytes name v), None),
               append w (field_bytes name v))) l ->
  writeSlice_ writeValue' l w
  = ((len (frame (elems_bytes field_bytes 0 l)), None),
     append w (frame (elems_bytes field_bytes 0 l))).
Proof.
  intros H. unfold writeSlice_. rewrite (writeSlice_range_ok l H).
  apply framed.
Qed.

(** A range with an entry [writeValue] fails on stops at the first such
    entry, with its error and the count 0. *)
Lemma writeMap_range_fails (fs : list (string * value)) :
  Forall (fun kv => if handled kv.2 then writes_field writeValue' kv.1 kv.2
                    else fails_on writeValue' kv.1 kv.2) fs ->
  forallb (fun kv => handled kv.2) fs = false ->
  forall count w, exists ty out,
    writeMap_range writeValue' fs count w
    = ((0, Some ("bson: unsupported type: " +:+ ty)), append w out).
Proof.
  induction 1 as [|[k v] fs Hkv _ IH]; intros Hh count w;
    [discriminate Hh|].
  simpl in Hh, Hkv. cbn [writeMap_range].
  destruct (handled v).
  - rewrite Hkv.
    destruct (IH Hh (count + len (field_bytes k v))
                (append w (field_bytes k v))) as (ty & out & ->).
    exists ty, (field_bytes k v ++ out). now rewrite append_append.
  - destruct (Hkv w) as (ty & out & ->). now exists ty, out.
Qed.

Lemma writeSlice_range_fails (l : list value) :
  Forall (fun v => forall name, if handled v then writes_field writeValue' name v
                                else fails_on writeValue' name v) l ->
  forallb handled l = false ->
  forall i count w, exists ty out,
    writeSlice_range writeValue' l i count w
    = ((0, Some ("bson: unsupported type: " +:+ ty)), append w out).
Proof.
  induction 1 as [|v l Hv _ IH]; intros Hh i count w;
    [discriminate Hh|].
  simpl in Hh. specialize (Hv (Itoa i)). cbn [writeSlice_range].
  destruct (handled v).
  - rewrite Hv.
    destruct (IH Hh (i + 1) (count + len (field_bytes (Itoa i) v))
                (append w (field_bytes (Itoa i) v))) as (ty & out & ->).
    exists ty, (field_bytes (Itoa i) v ++ out). now rewrite append_append.
  - destruct (Hv w) as (ty & out & ->). now exists ty, out.
Qed.

Lemma writeMap_fails (fs : list (string * value)) (w : writer) :
  Forall (fun kv => if handled kv.2 then writes_field writeValue' kv.1 kv.2
                    else fails_on writeValue' kv.1 kv.2) fs ->
  forallb (fun kv => handled kv.2) fs = false ->
  exists ty out,
    writeMap_ writeValue' fs w
    = ((0, Some ("bson: unsupported type: " +:+ ty)),
       append w ([0; 0; 0; 0] ++ out)).
Proof.
  intros H Hh. unfold writeMap_.
  destruct (writeMap_range_fails fs H Hh (sizeofInt32 + 1)
              (append w [0; 0; 0; 0])) as (ty & out & ->).
  exists ty, out. now rewrite append_append.
Qed.

Lemma writeSlice_fails (l : list value) (w : writer) :
  Forall (fun v => forall name, if handled v then writes_field writeValue' name v
                                else fails_on writeValue' name v) l ->
  forallb handled l = false ->
  exists ty out,
    writeSlice_ writeValue' l w
    = ((0, Some ("bson: unsupported type: " +:+ ty)), append w out).
Proof.
  intros H Hh. unfold writeSlice_.
  destruct (writeSlice_range_fails l H Hh 0 (sizeofInt32 + 1)
              (append w [0; 0; 0; 0])) as (ty & out & ->).
  eexists ty, _. now rewrite append_append.
Qed.

End ranges.

(** ** [writeValue] writes the field of the wire format *)

Ltac len_norm :=
  repeat (rewrite len_app || rewrite len_cons || rewrite len_nil
          || rewrite len_le_bytes || rewrite len_frame);
  unfold sizeofInt32, sizeofInt64.

Ltac field_eq :=
  unfold writeType, writeCstring, writeBytes, writeInt32, writeInt64,
    writeFloat64, writeBool, cstring;
  rewrite ?le_bytes_4, ?le_bytes_8, ?le_bytes_int32, ?append_append;
  apply pair_equal_spec; split;
  [apply pair_equal_spec; split; [len_norm; simpl; lia|reflexivity]
  |f_equal; simpl; rewrite <- ?app_assoc; reflexivity].

Lemma writeValue_handled (v : value) :
  handled v = true ->
  forall name w,
    writeValue name v w
    = ((len (field_bytes name v), None), append w (field_bytes name v)).
Proof.
  induction v as [v IH] using value_children_ind.
  destruct v as [| | |b| | |l|fs| | | | | |t| |]; intros Hh name w;
    try discriminate Hh; try (cbn [writeValue field_bytes]; field_eq).
  - destruct b; cbn [writeValue field_bytes]; field_eq.
  - simpl in IH, Hh. cbn [writeValue field_bytes].
    unfold writeType, writeCstring. rewrite writeSlice_ok.
    + rewrite ?append_append. unfold cstring. field_eq.
    + rewrite forallb_forall in Hh. rewrite Forall_forall in IH |- *.
      intros x Hx. apply IH; [assumption|].
      apply Hh, list_elem_of_In, Hx.
  - simpl in IH, Hh. cbn [writeValue field_bytes].
    unfold writeType, writeCstring. rewrite writeMap_ok.
    + rewrite ?append_append. unfold cstring. field_eq.
    + rewrite forallb_forall in Hh. rewrite Forall_fmap in IH.
      rewrite Forall_forall in IH |- *.
      intros [k x] Hx w'. apply (IH _ Hx).
      apply (Hh (k, x)), list_elem_of_In, Hx.
  - cbn [writeValue field_bytes]. unfold writeType, writeCstring.
    rewrite writeSlice_ok by constructor. field_eq.
  - cbn [writeValue field_bytes]. unfold writeType, writeCstring.
    rewrite writeMap_ok by constructor. field_eq.
Qed.

Lemma handled_entries (fs : list (string * value)) :
  forallb (fun kv => handled kv.2) fs = true ->
  Forall (fun kv => forall w,
            writeValue kv.1 kv.2 w
            = ((len (field_bytes kv.1 kv.2), None),
               append w (field_bytes kv.1 kv.2))) fs.
Proof.
  rewrite forallb_forall, Forall_forall. intros H [k v] Hkv w.
  apply writeValue_handled, (H (k, v)), list_elem_of_In, Hkv.
Qed.



(** ** A value [writeValue] has no case for *)

(** Every error of [writeValue] is the one of its default case; on an
    error the count is 0. *)
Lemma writeValue_unhandled (v : value) :
  handled v = false -> forall name, fails_on writeValue name v.
Proof.
  induction v as [v IH] using value_children_ind.
  destruct v as [| | |b| | |l|fs| | | | | |t|ty|k ty]; intros Hh name w;
    try discriminate Hh.
  - simpl in IH, Hh. cbn [writeValue]. unfold writeType, writeCstring.
    destruct (writeSlice_fails writeValue l
                (append (append (append w [4]) (bytes_of name)) [0]))
      as (ty & out & ->); [|assumption|].
    + eapply Forall_impl; [exact IH|]. intros x Hx name'.
      destruct (handled x) eqn:E; [exact (writeValue_handled x E name')|].
      now apply Hx.
    + eexists ty, _. rewrite !append_append. reflexivity.
  - simpl in IH, Hh. cbn [writeValue]. unfold writeType, writeCstring.
    destruct (writeMap_fails writeValue fs
                (append (append (append w [3]) (bytes_of name)) [0]))
      as (ty & out & ->); [|assumption|].
    + rewrite Forall_fmap in IH.
      eapply Forall_impl; [exact IH|]. intros [k x] Hx. simpl in *.
      destruct (handled x) eqn:E; [exact (writeValue_handled x E k)|].
      now apply Hx.
    + eexists ty, _. rewrite !append_append. reflexivity.
  - eexists _, []. rewrite append_nil. reflexivity.
  - eexists _, []. rewrite append_nil. reflexivity.
  - eexists _, []. rewrite append_nil. reflexivity.
Qed.

Lemma dichotomy_entries (fs : list (string * value)) :
  Forall (fun kv => if handled kv.2 then writes_field writeValue kv.1 kv.2
                    else fails_on writeValue kv.1 kv.2) fs.
Proof.
  apply Forall_forall. intros [k v] _. simpl.
  destruct (handled v) eqn:E.
  - exact (writeValue_handled v E k).
  - exact (writeValue_unhandled v E k).
Qed.

(** [writeValue] only appends to the writer. *)
Lemma writeValue_appends (name : string) (v : value) (w : writer) :
  exists out, (writeValue name v w).2 = append w out.
Proof.
  destruct (handled v) eqn:E.
  - rewrite (writeValue_handled v E). now eexists.
  - destruct (writeValue_unhandled v E name w) as (ty & out & ->).
    now exists out.
Qed.

(** ** [encode] *)


(** ** Fields *)

Lemma entries_bytes_app f (fs gs : list (string * value)) :
  entries_bytes f (fs ++ gs) = entries_bytes f fs ++ entries_bytes f gs.
Proof.
  induction fs as [|[k v] fs IH]; simpl; [reflexivity|].
  now rewrite IH, app_assoc.
Qed.

Lemma encode_handled (fs : list (string * value)) :
  forallb (fun kv => handled kv.2) fs = true ->
  encode (VMap fs) = Return (frame (entries_bytes field_bytes fs)) None.
Proof.
  intros Hh. unfold encode. simpl. unfold writeMap. simpl.
  now rewrite writeMap_ok by (apply handled_entries, Hh).
Qed.

Lemma encode_unhandled (fs : list (string * value)) :
  forallb (fun kv => handled kv.2) fs = false ->
  exists ty out,
    encode (VMap fs)
    = Return ([0; 0; 0; 0] ++ out)
        (Some ("bson: unsupported type: " +:+ ty)).
Proof.
  intros Hh. unfold encode. simpl. unfold writeMap. simpl.
  destruct (writeMap_fails writeValue fs (Writer [])
              (dichotomy_entries fs) Hh) as (ty & out & ->).
  now exists ty, out.
Qed.








(** ** The top level *)

(** C5: on a scalar and on the nil interface, [encode] panics, in
    [rv.IsNil()], where the claim has it return an error; on an array and
    on a nil map it does return one. *)
Theorem encode_root_panics :
  encode (VInt32 5) = Panic
  /\ encode (VString "x") = Panic
  /\ encode VNil = Panic
  /\ encode (VSlice [VInt32 5])
     = Return []
         (Some "bson: error calling MarshalJSON for type []interface {}: unsupported")
  /\ encode VNilMap
     = Return []
         (Some "bson: error calling MarshalJSON for type map[string]interface {}: was nil").
Proof. repeat split. Qed.

(** C6: on a record whose second field has no wire representation,
    [encode] returns the error together with the bytes written up to the
    failure: the header, still zero, and the first field.  So it is for
    every record with a field that cannot be written: the bytes returned
    with the error start with the four zero bytes of the header. *)
Theorem encode_error_keeps_partial_bytes :
  encode (VMap [("b", VString "hi"); ("a", VOther reflect.OUint8 "uint8")])
  = Return [0; 0; 0; 0; 0x02; 98; 0; 3; 0; 0; 0; 104; 105; 0]
      (Some "bson: unsupported type: uint8")
  /\ forall fs,
       forallb (fun kv => handled kv.2) fs = false ->
       exists ty out,
         encode (VMap fs)
         = Return ([0; 0; 0; 0] ++ out)
             (Some ("bson: unsupported type: " +:+ ty)).
Proof. split; [reflexivity|exact encode_unhandled]. Qed.

(** ** Documents and Arrays *)

Lemma entries_bytes_elem f (fs : list (string * value)) k v :
  (k, v) ∈ fs -> exists A B, entries_bytes f fs = A ++ f k v ++ B.
Proof.
  intros (fs1 & fs2 & ->)%list_elem_of_split.
  rewrite entries_bytes_app. simpl. eauto.
Qed.










(** ** Decoding what the encoder wrote *)

Lemma string_of_bytes_of (s : string) : string_of_bytes (bytes_of s) = s.
Proof.
  unfold string_of_bytes, bytes_of.
  induction s as [|c s IH]; simpl; [reflexivity|].
  rewrite N2Z.id, Ascii.ascii_N_embedding. f_equal. exact IH.
Qed.

Lemma read_app (k : nat) (A rest : list Z) (off : Z) :
  length A = k -> read k off (A ++ rest) = Ok (A, off + Z.of_nat k, rest).
Proof.
  intros <-. unfold read.
  destruct (decide _) as [_|Hn]; [|rewrite length_app in Hn; lia].
  now rewrite take_app_length, drop_app_length.
Qed.

Lemma read_name_bytes (l X : list Z) :
  forallb (fun b => negb (b =? 0)) l = true ->
  read_name (l ++ 0 :: X) = Some (l, X).
Proof.
  induction l as [|b l IH]; simpl; [reflexivity|].
  intros [Hb Hl]%andb_prop. apply negb_true_iff in Hb.
  now rewrite Hb, IH.
Qed.

Lemma read_cstring_ok (name : string) (off : Z) (X : list Z) :
  nul_free name = true ->
  read_cstring off (cstring name ++ X)
  = Ok (name, off + len (bytes_of name) + 1, X).
Proof.
  intros Hn. unfold read_cstring, cstring. rewrite <- app_assoc. simpl.
  now rewrite read_name_bytes, string_of_bytes_of.
Qed.

Lemma le_uint_small (k : nat) (n : Z) :
  0 <= n < 2 ^ (8 * Z.of_nat k) -> le_uint (le_bytes k n) = n.
Proof. intros H. rewrite le_uint_le_bytes. now apply Z.mod_small. Qed.

Lemma le_sint_small (k : nat) (n : Z) :
  (1 <= k)%nat ->
  - 2 ^ (8 * Z.of_nat k - 1) <= n < 2 ^ (8 * Z.of_nat k - 1) ->
  le_sint (le_bytes k n) = n.
Proof.
  intros Hk Hn. unfold le_sint. rewrite len_le_bytes, le_uint_le_bytes.
  assert (Hp : 2 ^ (8 * Z.of_nat k) = 2 * 2 ^ (8 * Z.of_nat k - 1)).
  { rewrite <- Z.pow_succ_r by lia. f_equal. lia. }
  assert (0 < 2 ^ (8 * Z.of_nat k - 1)) by (apply Z.pow_pos_nonneg; lia).
  destruct (Z.lt_ge_cases n 0) as [Hneg|Hpos].
  - rewrite <- (Z.mod_add n 1) by lia. rewrite Z.mod_small by lia.
    destruct (Z.ltb_spec (n + 1 * 2 ^ (8 * Z.of_nat k))
                (2 ^ (8 * Z.of_nat k - 1))); lia.
  - rewrite Z.mod_small by lia.
    destruct (Z.ltb_spec n (2 ^ (8 * Z.of_nat k - 1))); lia.
Qed.

Lemma read_fixed_le (k : nat) (f : list Z -> value) (n off : Z)
    (rest : list Z) :
  read_fixed k f off (le_bytes k n ++ rest)
  = Ok (f (le_bytes k n), off + Z.of_nat k, rest).
Proof.
  unfold read_fixed. now rewrite read_app by apply length_le_bytes.
Qed.

(** The digits of [strconv.Itoa] are not NUL. *)
Lemma Itoa_nul_free (i : Z) : nul_free (Itoa i) = true.
Proof.
  unfold nul_free, Itoa, bytes_of.
  assert (Hu : forall d,
             forallb (fun b => negb (b =? 0))
               ((fun c => Z.of_N (Ascii.N_of_ascii c))
                  <$> String.list_ascii_of_string (NilEmpty.string_of_uint d))
             = true)
    by (induction d; simpl; auto).
  unfold NilZero.string_of_int, NilZero.string_of_uint.
  destruct (Z.to_int i) as [d|d]; destruct d; simpl; auto.
Qed.

Lemma elems_bytes_indexed f i l :
  elems_bytes f i l = entries_bytes f (indexed i l).
Proof. revert i; induction l; intros; simpl; [|rewrite IHl]; reflexivity. Qed.

Lemma normalize_elems_indexed f i l :
  normalize_elems f i l = normalize_entries f (indexed i l).
Proof. revert i; induction l; intros; simpl; [|rewrite IHl]; reflexivity. Qed.

Lemma indexed_values i l : (indexed i l).*2 = l.
Proof. revert i; induction l; intros; simpl; [|rewrite IHl]; reflexivity. Qed.

Lemma indexed_names i l :
  Forall (fun kv => nul_free kv.1 = true) (indexed i l).
Proof.
  revert i; induction l; intros; simpl; constructor; auto.
  apply Itoa_nul_free.
Qed.

Lemma decode_fields_entries (fs : list (string * value)) :
  forall (fuel : nat) (off : Z) (rest : list Z),
    Forall (fun kv => forall fuel',
              len (field_bytes kv.1 kv.2) <= Z.of_nat fuel' ->
              decodes fuel' kv.1 kv.2) fs ->
    len (entries_bytes field_bytes fs) + 1 <= Z.of_nat fuel ->
    decode_fields fuel off (entries_bytes field_bytes fs ++ 0 :: rest)
    = Ok (normalize_entries normalize fs,
          off + len (entries_bytes field_bytes fs) + 1, rest).
Proof.
  induction fs as [|[k v] fs IH]; intros fuel off rest Hall Hfuel;
    (destruct fuel as [|fuel]; [unfold len in Hfuel; lia|]).
  - simpl. do 3 f_equal. unfold len. simpl. lia.
  - apply Forall_cons in Hall as [Hv Hall]. simpl in Hv.
    cbn [entries_bytes normalize_entries] in *. rewrite len_app in Hfuel.
    assert (0 <= len (entries_bytes field_bytes fs)) by (unfold len; lia).
    destruct (Hv fuel ltac:(lia) off
                (entries_bytes field_bytes fs ++ 0 :: rest))
      as (tag & body & E & Htag & Hdec).
    assert (1 <= len (field_bytes k v))
      by (rewrite E, len_cons; unfold len; lia).
    rewrite E in *. rewrite <- !app_assoc. cbn [app decode_fields].
    destruct (Z.eqb_spec tag 0) as [|_]; [contradiction|].
    rewrite Hdec, IH; [|assumption|lia].
    do 3 f_equal. rewrite !len_cons, len_app. lia.
Qed.

Lemma lookup_terminator (hdr body rest : list Z) (n : Z) :
  n = len hdr + len body + 1 ->
  (hdr ++ body ++ [0] ++ rest) !! Z.to_nat (n - 1) = Some 0.
Proof.
  intros ->. unfold len.
  replace (Z.to_nat _) with (length hdr + (length body + 0))%nat by lia.
  now rewrite !lookup_app_r', !Nat.add_0_r, !Nat.sub_diag
    || (rewrite lookup_app_r by lia; rewrite lookup_app_r by lia;
        replace (_ - _ - _)%nat with 0%nat by lia; reflexivity).
Qed.

Lemma decode_unit_frame (fs : list (string * value)) (fuel : nat)
    (off : Z) (rest : list Z) :
  let body := entries_bytes field_bytes fs in
  Forall (fun kv => forall fuel',
            len (field_bytes kv.1 kv.2) <= Z.of_nat fuel' ->
            decodes fuel' kv.1 kv.2) fs ->
  len (frame body) < 2 ^ 32 ->
  len body + 1 <= Z.of_nat fuel ->
  decode_unit_with (decode_fields fuel) off (frame body ++ rest)
  = Ok (VMap (normalize_entries normalize fs), off + len (frame body), rest).
Proof.
  intros body Hall Hsize Hfuel. unfold decode_unit_with.
  rewrite len_frame in *.
  assert (0 <= len body) by (unfold len; lia).
  unfold frame at 1. rewrite <- !app_assoc.
  rewrite read_app by apply length_le_bytes.
  rewrite le_uint_small by (change (8 * Z.of_nat 4) with 32; lia).
  destruct (Z.ltb_spec (len (frame body ++ rest)) (4 + len body + 1))
    as [Hlt|_].
  { rewrite len_app, len_frame in Hlt. unfold len in *. lia. }
  unfold frame. rewrite <- !app_assoc.
  rewrite lookup_terminator by (rewrite len_le_bytes; lia).
  cbn [app]. subst body.
  rewrite decode_fields_entries by assumption.
  destruct (Z.eqb_spec (off + Z.of_nat 4 + len (entries_bytes field_bytes fs) + 1)
              (off + (4 + len (entries_bytes field_bytes fs) + 1)))
    as [_|Hne]; [|lia].
  do 3 f_equal. lia.
Qed.

Ltac len_solve :=
  cbn [field_bytes] in *; unfold len, cstring, frame in *;
  repeat (progress simpl length in *
          || rewrite length_app in * || rewrite length_le_bytes in * );
  lia.

Lemma entry_len_le (fs : list (string * value)) k v :
  (k, v) ∈ fs ->
  len (field_bytes k v) <= len (entries_bytes field_bytes fs).
Proof.
  intros (A & B & ->)%(entries_bytes_elem field_bytes).
  rewrite !len_app. unfold len. lia.
Qed.

Lemma decodes_container (tag : Z) (name : string) (v : value)
    (fs : list (string * value)) (fuel : nat) :
  tag = 0x03 \/ tag = 0x04 ->
  field_bytes name v
  = tag :: cstring name ++ frame (entries_bytes field_bytes fs) ->
  normalize v = VMap (normalize_entries normalize fs) ->
  Forall (fun kv => forall fuel',
            len (field_bytes kv.1 kv.2) <= Z.of_nat fuel' ->
            decodes fuel' kv.1 kv.2) fs ->
  nul_free name = true ->
  len (field_bytes name v) < 2 ^ 32 ->
  len (field_bytes name v) <= Z.of_nat fuel ->
  decodes fuel name v.
Proof.
  intros Htag E En Hall Hname Hsize Hfuel off rest.
  rewrite E in *. rewrite len_cons, len_app, len_frame in Hsize, Hfuel.
  assert (0 <= len (cstring name)) by (unfold len; lia).
  assert (0 <= len (entries_bytes field_bytes fs)) by (unfold len; lia).
  eexists tag, _. split; [reflexivity|]. split; [lia|].
  rewrite <- app_assoc. unfold decode_field_with.
  rewrite read_cstring_ok by assumption.
  assert (Hunit := decode_unit_frame fs fuel
                     (off + 1 + len (bytes_of name) + 1) rest Hall).
  cbv zeta in Hunit. rewrite len_frame in Hunit.
  destruct Htag as [-> | ->]; cbv beta iota; rewrite Hunit by lia;
    rewrite En; do 3 f_equal;
    rewrite len_cons, len_app, len_frame; unfold cstring;
    rewrite len_app; unfold len; simpl; lia.
Qed.

(** Every supported Value decodes, as a field, to its normal form. *)
Lemma field_decodes (v : value) :
  supported v = true ->
  forall (name : string) (fuel : nat),
    nul_free name = true ->
    len (field_bytes name v) < 2 ^ 32 ->
    len (field_bytes name v) <= Z.of_nat fuel ->
    decodes fuel name v.
Proof.
  induction v as [v IH] using value_children_ind.
  destruct v as [|f|s| |n|n|l|fs|vv|n|n| | | | |];
    intros Hs name fuel Hname Hsize Hfuel; try discriminate Hs.
  - (* Null *)
    intros off rest. eexists _, _. split; [reflexivity|].
    split; [discriminate|].
    unfold decode_field_with. rewrite read_cstring_ok by assumption.
    cbv beta iota. do 3 f_equal. clear. len_solve.
  - (* Double *)
    apply andb_prop in Hs as [H0%Z.leb_le H1%Z.ltb_lt].
    intros off rest. eexists _, _. split; [reflexivity|].
    split; [discriminate|].
    rewrite <- app_assoc.
    unfold decode_field_with. rewrite read_cstring_ok by assumption.
    cbv beta iota. rewrite read_fixed_le, le_uint_small by (simpl; lia).
    do 3 f_equal. clear. len_solve.
  - (* String *)
    assert (Hsz : 1 <= len (bytes_of s) + 1 < 2 ^ 32)
      by (clear - Hsize; len_solve).
    intros off rest. eexists _, _. split; [reflexivity|].
    split; [discriminate|].
    rewrite <- !app_assoc.
    unfold decode_field_with. rewrite read_cstring_ok by assumption.
    cbv beta iota. unfold read_string.
    rewrite read_app by apply length_le_bytes.
    rewrite le_uint_small by (change (8 * Z.of_nat 4) with 32; lia).
    destruct (Z.ltb_spec (len (bytes_of s) + 1) 1) as [|_]; [lia|].
    rewrite app_assoc.
    rewrite read_app by (rewrite length_app; unfold len; simpl; lia).
    rewrite last_snoc.
    replace (Z.to_nat (len (bytes_of s) + 1) - 1)%nat
      with (length (bytes_of s)) by (unfold len; lia).
    rewrite take_app_length, string_of_bytes_of.
    do 3 f_equal. clear. len_solve.
  - (* Int32 *)
    apply andb_prop in Hs as [H0%Z.leb_le H1%Z.ltb_lt].
    intros off rest. eexists _, _. split; [reflexivity|].
    split; [discriminate|].
    rewrite <- app_assoc.
    unfold decode_field_with. rewrite read_cstring_ok by assumption.
    cbv beta iota. rewrite read_fixed_le, le_sint_small by (simpl; lia).
    do 3 f_equal. clear. len_solve.
  - (* Int64 *)
    apply andb_prop in Hs as [H0%Z.leb_le H1%Z.ltb_lt].
    intros off rest. eexists _, _. split; [reflexivity|].
    split; [discriminate|].
    rewrite <- app_assoc.
    unfold decode_field_with. rewrite read_cstring_ok by assumption.
    cbv beta iota. rewrite read_fixed_le, le_sint_small by (simpl; lia).
    do 3 f_equal. clear. len_solve.
  - (* Array *)
    simpl in IH, Hs.
    apply (decodes_container 0x04 name (VSlice l) (indexed 0 l));
      try assumption; [now right| | |].
    + cbn [field_bytes]. now rewrite elems_bytes_indexed.
    + cbn [normalize]. now rewrite normalize_elems_indexed.
    + apply Forall_forall. intros [k x] Hkx fuel' Hf. simpl in *.
      assert (Hx : x ∈ l)
        by (rewrite <- (indexed_values 0 l); apply list_elem_of_fmap;
            now exists (k, x)).
      assert (Hle := entry_len_le _ _ _ Hkx).
      cbn [field_bytes] in Hsize.
      rewrite elems_bytes_indexed, len_cons, len_app, len_frame in Hsize.
      assert (0 <= len (cstring name)) by (unfold len; lia).
      rewrite Forall_forall in IH. rewrite forallb_forall in Hs.
      apply IH; try assumption; try lia.
      * apply Hs, list_elem_of_In, Hx.
      * pose proof (indexed_names 0 l) as Hn.
        rewrite Forall_forall in Hn. exact (Hn _ Hkx).
  - (* Document *)
    simpl in IH, Hs.
    apply (decodes_container 0x03 name (VMap fs) fs);
      try assumption; [now left|reflexivity|reflexivity|].
    apply Forall_forall. intros [k x] Hkx fuel' Hf. simpl in *.
    assert (Hx : x ∈ fs.*2)
      by (apply list_elem_of_fmap; now exists (k, x)).
    assert (Hle := entry_len_le _ _ _ Hkx).
    cbn [field_bytes] in Hsize.
    rewrite len_cons, len_app, len_frame in Hsize.
    assert (0 <= len (cstring name)) by (unfold len; lia).
    rewrite Forall_forall in IH. rewrite forallb_forall in Hs.
    apply list_elem_of_In, Hs in Hkx. simpl in Hkx.
    apply andb_prop in Hkx as [Hk Hsx].
    apply IH; try assumption; lia.
  - (* Binary12 *)
    apply andb_prop in Hs as [H0%Nat.eqb_eq _].
    intros off rest. eexists _, _. split; [reflexivity|].
    split; [discriminate|].
    rewrite <- app_assoc.
    unfold decode_field_with. rewrite read_cstring_ok by assumption.
    cbv beta iota. unfold read_fixed. rewrite read_app by assumption.
    do 3 f_equal. clear - H0. len_solve.
  - (* DateTime *)
    apply andb_prop in Hs as [H0%Z.leb_le H1%Z.ltb_lt].
    intros off rest. eexists _, _. split; [reflexivity|].
    split; [discriminate|].
    rewrite <- app_assoc.
    unfold decode_field_with. rewrite read_cstring_ok by assumption.
    cbv beta iota. rewrite read_fixed_le, le_sint_small by (simpl; lia).
    do 3 f_equal. clear. len_solve.
  - (* Timestamp *)
    apply andb_prop in Hs as [H0%Z.leb_le H1%Z.ltb_lt].
    intros off rest. eexists _, _. split; [reflexivity|].
    split; [discriminate|].
    rewrite <- app_assoc.
    unfold decode_field_with. rewrite read_cstring_ok by assumption.
    cbv beta iota. rewrite read_fixed_le, le_sint_small by (simpl; lia).
    do 3 f_equal. clear. len_solve.
  - (* a nil slice *)
    apply (decodes_container 0x04 name VNilSlice []);
      try assumption; [now right|reflexivity|reflexivity|constructor].
  - (* a nil map *)
    apply (decodes_container 0x03 name VNilMap []);
      try assumption; [now left|reflexivity|reflexivity|constructor].
Qed.

(** ** The fuel of the decoder

    Every reader returns a part of the bytes it was given, and
    [decode_fields] a shorter one; so with more fuel than bytes one more
    unit of fuel makes no difference: the fuel [Decode] starts with is
    never used up. *)

Lemma read_shrinks n off bs x off' rest :
  read n off bs = Ok (x, off', rest) -> (length rest <= length bs)%nat.
Proof.
  unfold read. destruct (decide _); [|discriminate].
  intros [= _ _ <-]. rewrite length_drop. lia.
Qed.

Lemma read_name_shrinks bs s rest :
  read_name bs = Some (s, rest) -> (length rest < length bs)%nat.
Proof.
  revert s rest; induction bs as [|b bs IH]; intros s rest; simpl;
    [discriminate|].
  destruct (b =? 0); [intros [= _ <-]; lia|].
  destruct (read_name bs) as [[s' r]|]; [|discriminate].
  intros [= _ <-]. specialize (IH _ _ eq_refl). lia.
Qed.

Lemma read_cstring_shrinks off bs x off' rest :
  read_cstring off bs = Ok (x, off', rest) -> (length rest < length bs)%nat.
Proof.
  unfold read_cstring. destruct (read_name bs) as [[s r]|] eqn:E;
    [|discriminate].
  intros [= _ _ <-]. eapply read_name_shrinks, E.
Qed.

Lemma read_fixed_shrinks n f off bs x off' rest :
  read_fixed n f off bs = Ok (x, off', rest) ->
  (length rest <= length bs)%nat.
Proof.
  unfold read_fixed. destruct (read n off bs) as [[[b o] r]|] eqn:E;
    [|discriminate].
  intros [= _ _ <-]. eapply read_shrinks, E.
Qed.

Lemma read_string_shrinks off bs x off' rest :
  read_string off bs = Ok (x, off', rest) -> (length rest <= length bs)%nat.
Proof.
  unfold read_string. destruct (read 4 off bs) as [[[l o] r]|] eqn:E;
    [|discriminate].
  destruct (le_uint l <? 1); [discriminate|].
  destruct (read _ o r) as [[[b o2] r2]|] eqn:E2; [|discriminate].
  apply read_shrinks in E, E2.
  destruct (last b) as [[| |]|]; try discriminate.
  intros [= _ _ <-]. lia.
Qed.

Lemma decode_unit_with_shrinks fields off bs x off' rest :
  shrinking fields ->
  decode_unit_with fields off bs = Ok (x, off', rest) ->
  (length rest <= length bs)%nat.
Proof.
  intros Hf. unfold decode_unit_with.
  destruct (read 4 off bs) as [[[l o] body]|] eqn:E; [|discriminate].
  destruct (_ <? _); [discriminate|].
  destruct (bs !! _) as [[| |]|]; try discriminate.
  destruct (fields o body) as [[[fs o2] r]|] eqn:E2; [|discriminate].
  destruct (_ =? _); [|discriminate].
  intros [= _ _ <-]. apply read_shrinks in E. apply Hf in E2. lia.
Qed.

Lemma decode_field_with_shrinks fields tag off bs x off' rest :
  shrinking fields ->
  decode_field_with fields tag off bs = Ok (x, off', rest) ->
  (length rest < length bs)%nat.
Proof.
  intros Hf. unfold decode_field_with.
  destruct (read_cstring (off + 1) bs) as [[[name o] r]|] eqn:E;
    [|discriminate].
  apply read_cstring_shrinks in E.
  assert (Hunit := fun x o' r' => decode_unit_with_shrinks fields o r x o' r' Hf).
  assert (Hfix := fun n f x o' r' => read_fixed_shrinks n f o r x o' r').
  assert (Hstr := read_string_shrinks o r).
  match goal with
  | |- match ?payload with _ => _ end = _ -> _ =>
      assert (Hp : forall v o' r',
                 payload = Ok (v, o', r') -> (length r' <= length r)%nat)
  end.
  { intros v o' r'.
    destruct tag as [|p|p]; try discriminate.
    repeat (destruct p as [p|p|]; try discriminate);
      first [ apply Hunit | apply Hfix | apply Hstr
            | intros [= _ _ <-]; lia ]. }
  match goal with
  | |- match ?payload with _ => _ end = _ -> _ =>
      destruct payload as [[[v o'] r']|]; [|discriminate]
  end.
  intros [= _ _ <-]. specialize (Hp _ _ _ eq_refl). lia.
Qed.

Lemma decode_fields_shrinks (fuel : nat) : shrinking (decode_fields fuel).
Proof.
  induction fuel as [|fuel IH]; intros off bs x off' rest; simpl;
    [discriminate|].
  destruct bs as [|tag bs]; [discriminate|].
  destruct (tag =? 0); [intros [= _ _ <-]; simpl; lia|].
  destruct (decode_field_with _ tag off bs) as [[[kv o] r]|] eqn:E;
    [|discriminate].
  apply decode_field_with_shrinks in E; [|assumption].
  destruct (decode_fields fuel o r) as [[[fs o2] r2]|] eqn:E2;
    [|discriminate].
  apply IH in E2. intros [= _ _ <-]. simpl. lia.
Qed.

Lemma decode_unit_with_ext f g off bs :
  (forall o b, (length b <= length bs)%nat -> f o b = g o b) ->
  decode_unit_with f off bs = decode_unit_with g off bs.
Proof.
  intros H. unfold decode_unit_with.
  destruct (read 4 off bs) as [[[l o] body]|] eqn:E; [|reflexivity].
  apply read_shrinks in E. now rewrite (H o body E).
Qed.

Lemma decode_field_with_ext f g tag off bs :
  (forall o b, (length b <= length bs)%nat -> f o b = g o b) ->
  decode_field_with f tag off bs = decode_field_with g tag off bs.
Proof.
  intros H. unfold decode_field_with.
  destruct (read_cstring (off + 1) bs) as [[[name o] r]|] eqn:E;
    [|reflexivity].
  apply read_cstring_shrinks in E.
  rewrite (decode_unit_with_ext f g o r); [reflexivity|].
  intros o' b Hb. apply H. lia.
Qed.

Lemma decode_fields_fuel (fuel : nat) :
  forall off bs,
    (length bs < fuel)%nat ->
    decode_fields (S fuel) off bs = decode_fields fuel off bs.
Proof.
  induction fuel as [|fuel IH]; intros off bs Hlt; [lia|].
  destruct bs as [|tag bs]; [reflexivity|].
  change (decode_fields (S (S fuel)) off (tag :: bs))
    with (if tag =? 0 then Ok ([], off + 1, bs)
          else
            match decode_field_with (decode_fields (S fuel)) tag off bs with
            | Err e => Err e
            | Ok (kv, off1, rest) =>
                match decode_fields (S fuel) off1 rest with
                | Err e => Err e
                | Ok (fs, off2, rest) => Ok (kv :: fs, off2, rest)
                end
            end).
  change (decode_fields (S fuel) off (tag :: bs))
    with (if tag =? 0 then Ok ([], off + 1, bs)
          else
            match decode_field_with (decode_fields fuel) tag off bs with
            | Err e => Err e
            | Ok (kv, off1, rest) =>
                match decode_fields fuel off1 rest with
                | Err e => Err e
                | Ok (fs, off2, rest) => Ok (kv :: fs, off2, rest)
                end
            end).
  simpl in Hlt.
  rewrite (decode_field_with_ext (decode_fields (S fuel))
             (decode_fields fuel)) by (intros; apply IH; lia).
  destruct (tag =? 0); [reflexivity|].
  destruct (decode_field_with _ tag off bs) as [[[kv o] r]|] eqn:E;
    [|reflexivity].
  apply decode_field_with_shrinks in E; [|apply decode_fields_shrinks].
  rewrite IH by lia. reflexivity.
Qed.

(** [Decode] with any amount of fuel beyond the bytes at hand. *)
Lemma Decode_fuel (bs : list Z) (fuel : nat) :
  (length bs < fuel)%nat ->
  decode_unit_with (decode_fields fuel) 0 bs
  = decode_unit_with (decode_fields (S (length bs))) 0 bs.
Proof.
  induction fuel as [|fuel IH]; intros Hlt; [lia|].
  destruct (decide (fuel = length bs)) as [->|Hne]; [reflexivity|].
  rewrite <- IH by lia.
  apply decode_unit_with_ext. intros o b Hb.
  apply decode_fields_fuel. lia.
Qed.

Lemma supported_handled (v : value) : supported v = true -> handled v = true.
Proof.
  induction v as [v IH] using value_children_ind.
  destruct v; simpl in *; try reflexivity; try discriminate.
  - rewrite !forallb_forall. rewrite Forall_forall in IH.
    intros H x Hx. apply IH; [apply list_elem_of_In, Hx|apply H, Hx].
  - rewrite !forallb_forall. rewrite Forall_forall in IH.
    intros H [k x] Hx. simpl.
    apply IH; [apply list_elem_of_fmap; exists (k, x); split;
               [reflexivity|apply list_elem_of_In, Hx]|].
    apply H in Hx. simpl in Hx. now apply andb_prop in Hx as [_ Hx].
Qed.



End bson_proofs.

(** * More on the VarInt codec *)

Module varint_extra.
Import varint varint_spec varint_proofs.

(** ** The three wide widths share one encoding *)

Lemma uint64_small (n : Z) : 0 <= n < 2 ^ 64 -> uint64 n = n.
Proof. intros H. unfold uint64. now apply Z.mod_small. Qed.

Lemma Pack16_uvar (n : Z) :
  0 <= n < 2 ^ 16 ->
  exists bs, Pack16 n = Some bs /\ uvar n bs /\ (length bs <= 3)%nat.
Proof.
  intros H. unfold Pack16. rewrite uint64_small by lia.
  apply (Pack_make 3); [change (128 ^ Z.of_nat 3) with (2 ^ 21)|]; lia.
Qed.

Lemma Pack32_uvar (n : Z) :
  0 <= n < 2 ^ 32 ->
  exists bs, Pack32 n = Some bs /\ uvar n bs /\ (length bs <= 5)%nat.
Proof.
  intros H. unfold Pack32. rewrite uint64_small by lia.
  apply (Pack_make 5); [change (128 ^ Z.of_nat 5) with (2 ^ 35)|]; lia.
Qed.

Lemma Pack64_uvar (n : Z) :
  0 <= n < 2 ^ 64 ->
  exists bs, Pack64 n = Some bs /\ uvar n bs /\ (length bs <= 10)%nat.
Proof.
  intros H. unfold Pack64.
  apply (Pack_make 10); [change (128 ^ Z.of_nat 10) with (2 ^ 70)|]; lia.
Qed.

(** [Uvarint] stops at the end of the encoding, whatever follows. *)
Lemma Uvarint_uvar_rest x bs rest :
  uvar x bs -> (length bs <= 10)%nat -> x < 2 ^ 64 ->
  Uvarint (bs ++ rest) = (x, len bs).
Proof.
  intros H Hl Hx. unfold Uvarint.
  pose proof (Uvarint_loop_uvar x bs H rest 0 0) as E.
  change (7 * 0) with 0 in E.
  rewrite E; unfold len; simpl; try lia.
  f_equal; lia.
Qed.

(** The three unpack functions after a successful [Uvarint]. *)
Lemma Unpack_of_Uvarint (b : list Z) (n r : Z) :
  Uvarint b = (n, r) -> 0 < r -> 0 <= n < 2 ^ 64 ->
  Unpack64 b = (n, r, None)
  /\ (n < 2 ^ 32 -> Unpack32 b = (n, r, None))
  /\ (n < 2 ^ 16 -> Unpack16 b = (n, r, None))
  /\ (2 ^ 32 <= n ->
      Unpack32 b
      = (0, 0, Some "VarInt encoded integer greater than 4294967295 (uint32)"))
  /\ (2 ^ 16 <= n ->
      Unpack16 b
      = (0, 0, Some "VarInt encoded integer greater than 65535 (uint16)")).
Proof.
  intros E Hr Hn. unfold Unpack64, Unpack32, Unpack16. rewrite E.
  destruct (Z.eqb_spec r 0); [lia|]. destruct (Z.ltb_spec r 0); [lia|].
  refine (conj eq_refl (conj _ (conj _ (conj _ _)))); intros Hw.
  - destruct (Z.ltb_spec 4294967295 n); [lia|]. now rewrite Z.mod_small by lia.
  - destruct (Z.ltb_spec 65535 n); [lia|]. now rewrite Z.mod_small by lia.
  - destruct (Z.ltb_spec 4294967295 n); [reflexivity|lia].
  - destruct (Z.ltb_spec 65535 n); [reflexivity|lia].
Qed.

(** X1: the unpack functions read one number off the front of a buffer:
    on the bytes of [Pack64 n] followed by any bytes they return [n] and
    the length of the encoding, which is where the rest starts; the
    narrow ones do so when [n] is of their width. *)
Theorem Unpack_reads_the_front (n : Z) (rest : list Z)
    (Hn : 0 <= n < 2 ^ 64) :
  exists bs,
    Pack64 n = Some bs
    /\ Unpack64 (bs ++ rest) = (n, len bs, None)
    /\ (n < 2 ^ 32 -> Unpack32 (bs ++ rest) = (n, len bs, None))
    /\ (n < 2 ^ 16 -> Unpack16 (bs ++ rest) = (n, len bs, None)).
Proof.
  destruct (Pack64_uvar n Hn) as (bs & E & Hu & Hl).
  exists bs. split; [exact E|].
  destruct (Unpack_of_Uvarint (bs ++ rest) n (len bs)) as (H64 & H32 & H16 & _);
    [apply Uvarint_uvar_rest; [assumption..|lia]
    |now apply (uvar_len_pos n)|assumption|].
  auto.
Qed.

Lemma Unpack_reads_the_front_witness :
  0 <= 300 < 2 ^ 64
  /\ exists bs,
       Pack64 300 = Some bs
       /\ Unpack64 (bs ++ [7; 7]) = (300, len bs, None)
       /\ (300 < 2 ^ 32 -> Unpack32 (bs ++ [7; 7]) = (300, len bs, None))
       /\ (300 < 2 ^ 16 -> Unpack16 (bs ++ [7; 7]) = (300, len bs, None)).
Proof.
  split; [lia|]. apply (Unpack_reads_the_front 300 [7; 7]). lia.
Defined.

(** X2: a number of a narrow width has the same bytes at every width
    that holds it: [Pack16], [Pack32] and [Pack64] agree. *)
Theorem Pack_widths_agree (n : Z) (Hn : 0 <= n < 2 ^ 32) :
  Pack32 n = Pack64 n /\ (n < 2 ^ 16 -> Pack16 n = Pack64 n).
Proof.
  destruct (Pack64_uvar n) as (b64 & E64 & H64 & _); [lia|].
  destruct (Pack32_uvar n Hn) as (b32 & E32 & H32 & _).
  split.
  - rewrite E32, E64. f_equal. eapply uvar_functional; eassumption.
  - intros H. destruct (Pack16_uvar n) as (b16 & E16 & H16 & _); [lia|].
    rewrite E16, E64. f_equal. eapply uvar_functional; eassumption.
Qed.

Lemma Pack_widths_agree_witness :
  0 <= 300 < 2 ^ 32 /\ Pack32 300 = Pack64 300.
Proof.
  split; [lia|]. exact (proj1 (Pack_widths_agree 300 ltac:(lia))).
Defined.

(** X3: a number too large for a narrow width, packed at 64 bits, is
    refused by the narrow unpack functions with their own error, value 0
    and count 0. *)
Theorem Unpack_narrow_overflow (n : Z) (rest : list Z)
    (Hn : 2 ^ 16 <= n < 2 ^ 64) :
  exists bs,
    Pack64 n = Some bs
    /\ Unpack16 (bs ++ rest)
       = (0, 0, Some "VarInt encoded integer greater than 65535 (uint16)")
    /\ (2 ^ 32 <= n ->
        Unpack32 (bs ++ rest)
        = (0, 0,
           Some "VarInt encoded integer greater than 4294967295 (uint32)")).
Proof.
  destruct (Pack64_uvar n) as (bs & E & Hu & Hl); [lia|].
  exists bs. split; [exact E|].
  destruct (Unpack_of_Uvarint (bs ++ rest) n (len bs)) as (_ & _ & _ & H32 & H16);
    [apply Uvarint_uvar_rest; [assumption..|lia]
    |now apply (uvar_len_pos n)|lia|].
  split; [apply H16; lia|exact H32].
Qed.

Lemma Unpack_narrow_overflow_witness :
  2 ^ 16 <= 5000000000 < 2 ^ 64
  /\ exists bs,
       Pack64 5000000000 = Some bs
       /\ Unpack16 (bs ++ [])
          = (0, 0, Some "VarInt encoded integer greater than 65535 (uint16)")
       /\ (2 ^ 32 <= 5000000000 ->
           Unpack32 (bs ++ [])
           = (0, 0,
              Some "VarInt encoded integer greater than 4294967295 (uint32)")).
Proof.
  split; [lia|]. apply (Unpack_narrow_overflow 5000000000 []). lia.
Defined.

(** ** Buffers that do not hold a number *)

Lemma Uvarint_loop_continues (pre tail : list Z) :
  Forall (fun b => 128 <= b) pre ->
  forall x s i,
    0 <= i -> i + len pre <= 10 ->
    exists x' s',
      Uvarint_loop (pre ++ tail) x s i
      = Uvarint_loop tail x' s' (i + len pre).
Proof.
  unfold len. induction 1 as [|b pre Hb _ IH]; intros x s i Hi Hlen.
  - exists x, s. simpl. f_equal. lia.
  - simpl in *. unfold MaxVarintLen64.
    destruct (Z.eqb_spec i 10); [lia|].
    destruct (Z.ltb_spec b 128); [lia|].
    edestruct IH as (x' & s' & ->); [| |exists x', s'; f_equal]; lia.
Qed.

(** X4: a buffer that ends before the number does, the empty buffer
    among them, is refused by the wide unpack functions with the error
    "buf too small": every byte has its continuation bit set and there
    are at most 10. *)
Theorem Unpack_truncated (buf : list Z)
    (Hcont : Forall (fun b => 128 <= b) buf) (Hlen : (length buf <= 10)%nat) :
  Unpack16 buf = (0, 0, Some "Fatal Error: buf too small")
  /\ Unpack32 buf = (0, 0, Some "Fatal Error: buf too small")
  /\ Unpack64 buf = (0, 0, Some "Fatal Error: buf too small").
Proof.
  assert (E : Uvarint buf = (0, 0)).
  { unfold Uvarint.
    destruct (Uvarint_loop_continues buf [] Hcont 0 0 0) as (x' & s' & E);
      [lia|unfold len; lia|].
    rewrite app_nil_r in E. rewrite E. reflexivity. }
  unfold Unpack16, Unpack32, Unpack64. rewrite E. auto.
Qed.

Lemma Unpack_truncated_witness :
  Forall (fun b => 128 <= b) [0xAC] /\ (length [0xAC] <= 10)%nat
  /\ Unpack16 [0xAC] = (0, 0, Some "Fatal Error: buf too small").
Proof.
  assert (H : Forall (fun b => 128 <= b) [0xAC]) by (repeat constructor; lia).
  split; [exact H|]. split; [simpl; lia|].
  apply (Unpack_truncated [0xAC] H). simpl; lia.
Defined.

(** X5: ten groups with more than one bit in the tenth do not fit 64
    bits: nine continuation bytes and a tenth byte between 2 and 127 are
    refused by every wide unpack function with the uint64 error. *)
Theorem Unpack_overflows_uint64 (pre : list Z) (b : Z) (rest : list Z)
    (Hcont : Forall (fun b => 128 <= b) pre) (Hlen : length pre = 9%nat)
    (Hb : 1 < b < 128) :
  let msg :=
    "VarInt encoded integer greater than 18446744073709551615 (uint64)" in
  Unpack16 (pre ++ b :: rest) = (0, 0, Some msg)
  /\ Unpack32 (pre ++ b :: rest) = (0, 0, Some msg)
  /\ Unpack64 (pre ++ b :: rest) = (0, 0, Some msg).
Proof.
  assert (E : Uvarint (pre ++ b :: rest) = (0, -10)).
  { unfold Uvarint.
    destruct (Uvarint_loop_continues pre (b :: rest) Hcont 0 0 0)
      as (x' & s' & E); [lia|unfold len; lia|].
    rewrite E. unfold len. rewrite Hlen. simpl. unfold MaxVarintLen64.
    destruct (Z.ltb_spec b 128); [|lia].
    destruct (Z.ltb_spec 1 b); [reflexivity|lia]. }
  unfold Unpack16, Unpack32, Unpack64. rewrite E. auto.
Qed.

Lemma Unpack_overflows_uint64_witness :
  let pre := replicate 9 0xFF in
  Forall (fun b => 128 <= b) pre /\ length pre = 9%nat /\ 1 < 2 < 128
  /\ Unpack64 (pre ++ 2 :: [])
     = (0, 0,
        Some "VarInt encoded integer greater than 18446744073709551615 (uint64)").
Proof.
  intros pre.
  assert (H : Forall (fun b => 128 <= b) pre)
    by (repeat constructor; lia).
  split; [exact H|]. split; [reflexivity|]. split; [lia|].
  apply (Unpack_overflows_uint64 pre 2 [] H); [reflexivity|lia].
Defined.

(** X6: the unpack functions do not ask for the minimal encoding: a
    number below 128 padded with a zero group is read as the number, two
    bytes used, though [Pack16] writes it in one. *)
Theorem Unpack_accepts_padding (n : Z) (rest : list Z) (Hn : 0 <= n < 128) :
  Pack16 n = Some [n]
  /\ Unpack16 (n + 128 :: 0 :: rest) = (n, 2, None)
  /\ Unpack32 (n + 128 :: 0 :: rest) = (n, 2, None)
  /\ Unpack64 (n + 128 :: 0 :: rest) = (n, 2, None).
Proof.
  split.
  - destruct (Pack16_uvar n) as (bs & E & Hu & _); [lia|].
    rewrite E. f_equal. eapply uvar_functional; [exact Hu|].
    constructor; lia.
  - assert (E : Uvarint (n + 128 :: 0 :: rest) = (n, 2)).
    { unfold Uvarint. simpl. unfold MaxVarintLen64. simpl.
      destruct (Z.ltb_spec (n + 128) 128); [lia|].
      rewrite land_0x7f by lia.
      replace ((n + 128) mod 128) with n
        by (rewrite <- Z.add_mod_idemp_r, Z.mod_same, Z.add_0_r by lia;
            symmetry; apply Z.mod_small; lia).
      rewrite Z.shiftl_0_r. unfold uint64.
      rewrite Z.mod_small by lia. simpl. rewrite Z.lor_0_r. reflexivity. }
    destruct (Unpack_of_Uvarint _ n 2 E) as (H64 & H32 & H16 & _);
      [lia|lia|].
    repeat split; [apply H16|apply H32|exact H64]; lia.
Qed.

Lemma Unpack_accepts_padding_witness :
  0 <= 5 < 128 /\ Pack16 5 = Some [5]
  /\ Unpack16 (5 + 128 :: 0 :: []) = (5, 2, None).
Proof.
  split; [lia|].
  destruct (Unpack_accepts_padding 5 []) as (H1 & H2 & _); [lia|].
  split; [exact H1|exact H2].
Defined.

(** ** The encodings as a code *)

(** X7: no encoding is the beginning of another: if the bytes of
    [Pack64 m] start with the bytes of [Pack64 n], the numbers are the
    same.  In particular different numbers have different bytes. *)
Theorem Pack_prefix_free (n m : Z) (bs rest : list Z)
    (Hn : 0 <= n < 2 ^ 64) (Hm : 0 <= m < 2 ^ 64)
    (En : Pack64 n = Some bs) (Em : Pack64 m = Some (bs ++ rest)) :
  n = m /\ rest = [].
Proof.
  destruct (Pack64_uvar n Hn) as (bn & En' & Hun & Hln).
  destruct (Pack64_uvar m Hm) as (bm & Em' & Hum & Hlm).
  rewrite En in En'. injection En' as <-.
  rewrite Em in Em'. injection Em' as <-.
  pose proof (Uvarint_uvar_rest n bs rest Hun Hln ltac:(lia)) as E1.
  pose proof (Uvarint_uvar_rest m (bs ++ rest) [] Hum Hlm ltac:(lia)) as E2.
  rewrite app_nil_r, E1 in E2. injection E2 as -> Hlen.
  split; [reflexivity|].
  unfold len in Hlen. rewrite length_app in Hlen.
  apply length_zero_iff_nil. lia.
Qed.

Lemma Pack_prefix_free_witness :
  0 <= 300 < 2 ^ 64 /\ Pack64 300 = Some ([0xAC; 0x02] ++ [])
  /\ 300 = 300.
Proof.
  split; [lia|]. split; [reflexivity|].
  apply (Pack_prefix_free 300 300 [0xAC; 0x02] []); (lia || reflexivity).
Defined.

Lemma uvar_bound x bs : uvar x bs -> x < 128 ^ Z.of_nat (length bs).
Proof.
  induction 1 as [x Hx|x bs Hx H IH].
  - simpl. lia.
  - cbn [length]. rewrite Nat2Z.inj_succ, Z.pow_succ_r by lia.
    pose proof (Z.div_mod x 128 ltac:(lia)).
    pose proof (Z.mod_pos_bound x 128 ltac:(lia)). lia.
Qed.

(** X8: the size of an encoding: [Pack64 n] has at most [k] bytes
    exactly when [n] is below 128^k, one byte for every 7 bits. *)
Theorem Pack_length (n : Z) (k : nat) (bs : list Z)
    (Hn : 0 <= n < 2 ^ 64) (Hk : (1 <= k)%nat) (E : Pack64 n = Some bs) :
  (length bs <= k)%nat <-> n < 128 ^ Z.of_nat k.
Proof.
  destruct (Pack64_uvar n Hn) as (b & E' & Hu & _).
  rewrite E in E'. injection E' as <-. split.
  - intros Hl. pose proof (uvar_bound _ _ Hu).
    assert (128 ^ Z.of_nat (length bs) <= 128 ^ Z.of_nat k)
      by (apply Z.pow_le_mono_r; lia).
    lia.
  - intros Hlt. now apply (uvar_length n).
Qed.

Lemma Pack_length_witness :
  0 <= 300 < 2 ^ 64 /\ (1 <= 2)%nat /\ Pack64 300 = Some [0xAC; 0x02]
  /\ ((length [0xAC; 0x02] <= 2)%nat <-> 300 < 128 ^ Z.of_nat 2).
Proof.
  split; [lia|]. split; [lia|]. split; [reflexivity|].
  apply (Pack_length 300 2 [0xAC; 0x02]); (lia || reflexivity).
Defined.

(** ** The 8-bit width *)

(** X9: the two bytes [Pack8] writes for a number from 128 on are the
    standard base-128 encoding of that number: [Pack8] and [Pack16]
    write the same bytes for every uint8, and [Unpack16] reads what
    [Pack8] wrote, with the number of bytes it used. *)
Theorem Pack8_is_standard (n : Z) (rest : list Z) (Hn : 0 <= n < 256) :
  Pack16 n = Some (Pack8 n)
  /\ Unpack16 (Pack8 n ++ rest) = (n, len (Pack8 n), None).
Proof.
  assert (Hu : uvar n (Pack8 n)).
  { unfold Pack8. destruct (Z.ltb_spec n 128).
    - constructor; lia.
    - assert (Hq : n / 128 = 1) by (Z.div_mod_to_equations; lia).
      assert (Hr : n mod 128 + 128 = n) by (Z.div_mod_to_equations; lia).
      rewrite <- Hr at 2. rewrite <- Hq.
      constructor; [lia|]. constructor. lia. }
  split.
  - destruct (Pack16_uvar n) as (bs & E & Hu' & _); [lia|].
    rewrite E. f_equal. eapply uvar_functional; eassumption.
  - destruct (Unpack_of_Uvarint (Pack8 n ++ rest) n (len (Pack8 n)))
      as (_ & _ & H16 & _).
    + apply Uvarint_uvar_rest; [assumption| |lia].
      unfold Pack8. destruct (n <? 128); simpl; lia.
    + now apply (uvar_len_pos n).
    + lia.
    + apply H16. lia.
Qed.

Lemma Pack8_is_standard_witness :
  0 <= 200 < 256 /\ Pack16 200 = Some (Pack8 200)
  /\ Unpack16 (Pack8 200 ++ []) = (200, len (Pack8 200), None).
Proof. split; [lia|]. apply (Pack8_is_standard 200 []). lia. Defined.

(** X10: [Unpack8] gives back the number [Pack8] packed, whatever
    follows its bytes; the count it reports is 1 for both forms. *)
Theorem Unpack8_Pack8 (n : Z) (rest : list Z) (Hn : 0 <= n < 256) :
  Unpack8 (Pack8 n ++ rest) = (n, 1, None).
Proof.
  unfold Pack8, Unpack8. destruct (Z.ltb_spec n 128) as [H|H]; simpl.
  - destruct (Z.ltb_spec n 128); [reflexivity|lia].
  - destruct (Z.ltb_spec n 128); [lia|reflexivity].
Qed.

Lemma Unpack8_Pack8_witness :
  0 <= 200 < 256 /\ Unpack8 (Pack8 200 ++ [9]) = (200, 1, None).
Proof. split; [lia|]. apply (Unpack8_Pack8 200 [9]). lia. Defined.

(** X11: when [Unpack8] fails and when it does not.  It returns a value
    exactly on a buffer that starts with a byte below 128, or with a
    byte from 128 on followed by 0x01, and the value is that first byte;
    on every other buffer it returns 0, 0 and one of its three errors:
    for the empty buffer, for a single byte from 128 on, for a second
    byte other than 0x01. *)
Theorem Unpack8_cases (blob : list Z) :
  match Unpack8 blob with
  | (v, r, None) =>
      r = 1 /\ exists tl, blob = v :: tl
                          /\ (v < 128 \/ exists tl', tl = 0x01 :: tl')
  | (v, r, Some msg) =>
      v = 0 /\ r = 0
      /\ ((blob = [] /\ msg = "varint: buf has zero length")
          \/ (exists b, 128 <= b /\ blob = [b]
                        /\ msg = "varint: buf too small")
          \/ (exists b b1 tl, 128 <= b /\ b1 <> 0x01 /\ blob = b :: b1 :: tl
                /\ msg = "varint: encoded integer greater than 255 (uint8)"))
  end.
Proof.
  unfold Unpack8. destruct blob as [|b tl]; [auto 10|].
  destruct (Z.ltb_spec b 128); [eauto 10|].
  destruct tl as [|b1 tl]; [eauto 10|].
  destruct (Z.eqb_spec b1 1) as [->|]; simpl; [eauto 10|].
  repeat split. right. right. eauto 10.
Qed.

End varint_extra.

(** * More on the document encoder *)

Module bson_extra.
Import bson bson_spec bson_extra_spec bson_proofs.

(** ** A slice is written as the map of its indices *)

Lemma writeSlice_range_indexed wv (l : list value) :
  forall i count w,
    writeSlice_range wv l i count w
    = writeMap_range wv (indexed i l) count w.
Proof.
  induction l as [|v l IH]; intros i count w; simpl; [reflexivity|].
  destruct (wv (Itoa i) v w) as [[n [e|]] w']; [reflexivity|apply IH].
Qed.

(** X12: [writeSlice] does for a slice what [writeMap] does for the map
    from the decimal indices "0", "1", ... to the elements, in the order
    of the indices: the same bytes, the same count, the same error. *)
Theorem writeSlice_as_writeMap (l : list value) (w : writer) :
  writeSlice (VSlice l) w = writeMap (VMap (indexed 0 l)) w
  /\ (indexed 0 l).*1 = (fun i => Itoa (Z.of_nat i)) <$> seq 0 (length l)
  /\ (indexed 0 l).*2 = l.
Proof.
  split; [|split].
  - unfold writeSlice, writeMap, writeSlice_, writeMap_. simpl.
    now rewrite writeSlice_range_indexed.
  - change 0 with (Z.of_nat 0) at 1. generalize 0%nat as i.
    induction l as [|v l IH]; intros i; simpl; [reflexivity|].
    f_equal. rewrite <- IH. do 2 f_equal. lia.
  - apply indexed_values.
Qed.

(** ** What a call of the writers leaves behind *)

Lemma dichotomy_elems (l : list value) :
  Forall (fun v => forall name,
            if handled v then writes_field writeValue name v
            else fails_on writeValue name v) l.
Proof.
  apply Forall_forall. intros v _ name.
  destruct (handled v) eqn:E.
  - exact (writeValue_handled v E name).
  - exact (writeValue_unhandled v E name).
Qed.


(** X14: what [writeMap] and [writeSlice] return and leave in the writer,
    for a map and a slice.  With no error the count is the number of
    bytes appended, 5 at least, and every entry can be written; with an
    error the count is 0 and the bytes appended start with the four zero
    bytes put down for the header, which is never filled in. *)
Theorem writeMap_outcome (fs : list (string * value)) (l : list value)
    (w : writer) :
  let outcome (r : (Z * error) * writer) (ok : bool) :=
    match r with
    | ((n, None), w') =>
        ok = true
        /\ exists out, bson_ w' = bson_ w ++ out /\ n = len out /\ 5 <= n
    | ((n, Some msg), w') =>
        ok = false /\ n = 0
        /\ (exists ty, msg = "bson: unsupported type: " +:+ ty)
        /\ exists out, bson_ w' = bson_ w ++ [0; 0; 0; 0] ++ out
    end in
  outcome (writeMap (VMap fs) w) (forallb (fun kv => handled kv.2) fs)
  /\ outcome (writeSlice (VSlice l) w) (forallb handled l).
Proof.
  assert (Hmap : forall fs,
            match writeMap (VMap fs) w with
            | ((n, None), w') =>
                forallb (fun kv => handled kv.2) fs = true
                /\ exists out, bson_ w' = bson_ w ++ out /\ n = len out
                               /\ 5 <= n
            | ((n, Some msg), w') =>
                forallb (fun kv => handled kv.2) fs = false /\ n = 0
                /\ (exists ty, msg = "bson: unsupported type: " +:+ ty)
                /\ exists out, bson_ w' = bson_ w ++ [0; 0; 0; 0] ++ out
            end).
  { clear. intros fs. unfold writeMap. simpl.
    destruct (forallb _ fs) eqn:E.
    - rewrite writeMap_ok by (apply handled_entries, E).
      split; [reflexivity|]. eexists. split; [reflexivity|].
      split; [reflexivity|]. rewrite len_frame. unfold len. lia.
    - destruct (writeMap_fails writeValue fs w (dichotomy_entries fs) E)
        as (ty & out & ->).
      split; [reflexivity|]. split; [reflexivity|]. split; eauto. }
  intros outcome. split; [apply Hmap|].
  destruct (writeSlice_as_writeMap l w) as (-> & _ & Hv).
  replace (forallb handled l)
    with (forallb (fun kv => handled kv.2) (indexed 0 l)); [apply Hmap|].
  rewrite <- Hv at 2. generalize (indexed 0 l). clear.
  induction l as [|[k v] l IH]; simpl; [reflexivity|now rewrite IH].
Qed.

(** ** The top level *)



(** ** The order of the entries *)




(** ** Names *)

Lemma bytes_of_app (a b : string) :
  bytes_of (a +:+ b) = bytes_of a ++ bytes_of b.
Proof.
  unfold bytes_of. induction a as [|c a IH]; simpl; [reflexivity|].
  f_equal. exact IH.
Qed.

(** X18: names are written as they are, a NUL inside not refused and
    not escaped.  So a Null field whose name is [a], a NUL, the byte 0x0A
    and [b] is written as the Null field [a] followed by the Null field
    [b]: two different records with the same bytes. *)
Theorem name_with_NUL (a b : string) (w : writer) :
  writeValue (spliced a b) VNil w
  = (let '((n1, _), w1) := writeValue a VNil w in
     let '((n2, _), w2) := writeValue b VNil w1 in
     ((n1 + n2, None), w2))
  /\ encode (VMap [(spliced a b, VNil)]) = encode (VMap [(a, VNil); (b, VNil)])
  /\ [(spliced a b, VNil)] <> [(a, VNil); (b, VNil)].
Proof.
  assert (E : field_bytes (spliced a b) VNil
              = field_bytes a VNil ++ field_bytes b VNil).
  { cbn [field_bytes]. unfold cstring, spliced.
    rewrite bytes_of_app. simpl. rewrite <- !app_assoc. reflexivity. }
  split; [|split].
  - rewrite !writeValue_handled by reflexivity.
    rewrite E, append_append, len_app. reflexivity.
  - rewrite !encode_handled by reflexivity. cbn [entries_bytes].
    rewrite E, <- app_assoc. reflexivity.
  - discriminate.
Qed.

(** ** The primitive writers *)

Lemma int32_range (v : Z) : - 2 ^ 31 <= int32 v < 2 ^ 31.
Proof.
  unfold int32. pose proof (Z.mod_pos_bound (v + 2 ^ 31) (2 ^ 32)). lia.
Qed.

(** X19: the integer and float writers append the little-endian bytes
    of their argument and return their number.  [writeInt32] appends 4
    bytes that read back, as a signed number, to the int32 written;
    [writeInt64] appends 8 that read back to the int64; [writeFloat64]
    appends the 8 bytes of the bit pattern.  Every byte is a byte. *)
Theorem fixed_width_writers (v bits : Z) (w : writer)
    (Hv : - 2 ^ 63 <= v < 2 ^ 63) (Hbits : 0 <= bits < 2 ^ 64) :
  (exists bs,
     writeInt32 (int32 v) w = (4, append w bs)
     /\ length bs = 4%nat /\ Forall (fun b => 0 <= b < 256) bs
     /\ le_sint bs = int32 v)
  /\ (exists bs,
        writeInt64 v w = (8, append w bs)
        /\ length bs = 8%nat /\ Forall (fun b => 0 <= b < 256) bs
        /\ le_sint bs = v)
  /\ (exists bs,
        writeFloat64 bits w = (8, append w bs)
        /\ length bs = 8%nat /\ Forall (fun b => 0 <= b < 256) bs
        /\ le_uint bs = bits).
Proof.
  split; [|split].
  - exists (le_bytes 4 (int32 v)). unfold writeInt32.
    rewrite le_bytes_4. repeat split.
    + apply le_bytes_range.
    + apply le_sint_small; [lia|]. apply int32_range.
  - exists (le_bytes 8 v). unfold writeInt64.
    rewrite le_bytes_8. repeat split.
    + apply le_bytes_range.
    + apply le_sint_small; [lia|exact Hv].
  - exists (le_bytes 8 bits). unfold writeFloat64.
    rewrite le_bytes_8. repeat split.
    + apply le_bytes_range.
    + apply le_uint_small. exact Hbits.
Qed.

Lemma fixed_width_writers_witness :
  - 2 ^ 63 <= -2 < 2 ^ 63 /\ 0 <= 0x3FF8000000000000 < 2 ^ 64
  /\ exists bs,
       writeInt64 (-2) (Writer []) = (8, append (Writer []) bs)
       /\ length bs = 8%nat /\ Forall (fun b => 0 <= b < 256) bs
       /\ le_sint bs = -2.
Proof.
  split; [lia|]. split; [lia|].
  exact (proj1 (proj2 (fixed_width_writers (-2) 0x3FF8000000000000
                         (Writer []) ltac:(lia) ltac:(lia)))).
Defined.

(** ** The bytes of a supported record *)

Lemma bytes_of_range (s : string) :
  Forall (fun b => 0 <= b < 256) (bytes_of s).
Proof.
  unfold bytes_of. induction s as [|c s IH]; simpl; constructor; [|exact IH].
  pose proof (Ascii.N_ascii_bounded c). lia.
Qed.

Lemma frame_range (body : list Z) :
  Forall (fun b => 0 <= b < 256) body ->
  Forall (fun b => 0 <= b < 256) (frame body).
Proof.
  intros H. unfold frame. repeat apply Forall_app_2; auto.
  - apply le_bytes_range.
  - repeat constructor; lia.
Qed.

Lemma cstring_range (s : string) :
  Forall (fun b => 0 <= b < 256) (cstring s).
Proof.
  unfold cstring. apply Forall_app_2; [apply bytes_of_range|].
  repeat constructor; lia.
Qed.

Lemma entries_bytes_range (fs : list (string * value)) :
  Forall (fun kv => Forall (fun b => 0 <= b < 256) (field_bytes kv.1 kv.2)) fs ->
  Forall (fun b => 0 <= b < 256) (entries_bytes field_bytes fs).
Proof.
  induction 1 as [|[k v] fs H _ IH]; simpl; [constructor|].
  now apply Forall_app_2.
Qed.

Lemma field_bytes_range (v : value) :
  supported v = true ->
  forall name, Forall (fun b => 0 <= b < 256) (field_bytes name v).
Proof.
  induction v as [v IH] using value_children_ind.
  destruct v as [|f|s| |n|n|l|fs|vv|n|n| | | | |]; intros Hs name;
    try discriminate Hs; cbn [field_bytes];
    (constructor; [lia|]);
    first [exact (cstring_range name)
          |apply Forall_app_2; [exact (cstring_range name)|]];
    try exact (le_bytes_range _ _).
  - apply Forall_app_2; [apply le_bytes_range|].
    apply Forall_app_2; [apply bytes_of_range|repeat constructor; lia].
  - apply frame_range. rewrite elems_bytes_indexed.
    apply entries_bytes_range. simpl in IH, Hs.
    apply Forall_forall. intros [k x] Hkx. simpl.
    assert (Hx : x ∈ l)
      by (rewrite <- (indexed_values 0 l); apply list_elem_of_fmap;
          now exists (k, x)).
    rewrite Forall_forall in IH. rewrite forallb_forall in Hs.
    apply IH; [assumption|]. apply Hs, list_elem_of_In, Hx.
  - apply frame_range, entries_bytes_range. simpl in IH, Hs.
    apply Forall_forall. intros [k x] Hkx. simpl.
    rewrite Forall_forall in IH. rewrite forallb_forall in Hs.
    apply IH; [apply list_elem_of_fmap; now exists (k, x)|].
    apply list_elem_of_In, Hs in Hkx. simpl in Hkx.
    now apply andb_prop in Hkx as [_ Hx].
  - simpl in Hs. apply andb_prop in Hs as [_ Hs].
    rewrite forallb_forall in Hs. apply Forall_forall. intros b Hb.
    apply list_elem_of_In, Hs in Hb. lia.
  - apply frame_range. constructor.
  - apply frame_range. constructor.
Qed.

(** X20: the output for a supported record is a sequence of bytes: every
    number [encode] returns is between 0 and 255, down to the negative
    integers, written in two's complement. *)
Theorem encode_writes_bytes (fs : list (string * value)) (out : list Z)
    (Hs : supported (VMap fs) = true)
    (Henc : encode (VMap fs) = Return out None) :
  Forall (fun b => 0 <= b < 256) out.
Proof.
  rewrite encode_handled in Henc by exact (supported_handled (VMap fs) Hs).
  assert (E : frame (entries_bytes field_bytes fs) = out) by congruence.
  rewrite <- E.
  apply frame_range, entries_bytes_range.
  simpl in Hs. rewrite forallb_forall in Hs.
  apply Forall_forall. intros [k x] Hkx. simpl.
  apply field_bytes_range.
  apply list_elem_of_In, Hs in Hkx. simpl in Hkx.
  now apply andb_prop in Hkx as [_ Hx].
Qed.

Lemma encode_writes_bytes_witness :
  let fs := [("n", VInt32 (-2)); ("s", VString "hi")] in
  let out := [22; 0; 0; 0; 16; 110; 0; 254; 255; 255; 255;
              2; 115; 0; 3; 0; 0; 0; 104; 105; 0; 0] in
  supported (VMap fs) = true /\ encode (VMap fs) = Return out None
  /\ Forall (fun b => 0 <= b < 256) out.
Proof.
  intros fs out. split; [reflexivity|]. split; [reflexivity|].
  exact (encode_writes_bytes fs out eq_refl eq_refl).
Defined.

(** What [Decode] makes of the bytes of a supported record. *)
Lemma Decode_frame (fs : list (string * value)) :
  supported (VMap fs) = true ->
  len (frame (entries_bytes field_bytes fs)) < 2 ^ 32 ->
  Decode (frame (entries_bytes field_bytes fs)) = Ok (normalize (VMap fs)).
Proof.
  intros Hs Hsize. unfold Decode.
  pose proof (decode_unit_frame fs
                (S (length (frame (entries_bytes field_bytes fs)))) 0 [])
    as E.
  cbv zeta in E. rewrite app_nil_r in E. rewrite E; [reflexivity| | |].
  - apply Forall_forall. intros [k x] Hkx fuel' Hf. simpl in *.
    assert (Hle := entry_len_le _ _ _ Hkx).
    rewrite len_frame in Hsize. rewrite forallb_forall in Hs.
    apply list_elem_of_In, Hs in Hkx. simpl in Hkx.
    apply andb_prop in Hkx as [Hk Hsx].
    apply field_decodes; try assumption; lia.
  - assumption.
  - unfold frame. rewrite !length_app. unfold len. simpl. lia.
Qed.

(** X21: supported records with the same bytes are the same record, up
    to what [normalize] forgets (an Array is the Document of its indices,
    a nil map or slice is the empty one): [encode] loses nothing else. *)
Theorem encode_injective (fs fs' : list (string * value)) (out : list Z)
    (Hs : supported (VMap fs) = true) (Hs' : supported (VMap fs') = true)
    (Henc : encode (VMap fs) = Return out None)
    (Henc' : encode (VMap fs') = Return out None)
    (Hsize : len out < 2 ^ 32) :
  normalize (VMap fs) = normalize (VMap fs').
Proof.
  rewrite encode_handled in Henc by exact (supported_handled _ Hs).
  rewrite encode_handled in Henc' by exact (supported_handled _ Hs').
  assert (E1 : frame (entries_bytes field_bytes fs) = out) by congruence.
  assert (E2 : frame (entries_bytes field_bytes fs') = out) by congruence.
  pose proof (Decode_frame fs Hs) as D. rewrite E1 in D.
  pose proof (Decode_frame fs' Hs') as D'. rewrite E2 in D'.
  rewrite D in D' by assumption. specialize (D' Hsize). congruence.
Qed.

Lemma encode_injective_witness :
  let fs := [("a", VNilMap)] in
  let fs' := [("a", VMap [])] in
  let out := [13; 0; 0; 0; 3; 97; 0; 5; 0; 0; 0; 0; 0] in
  supported (VMap fs) = true /\ supported (VMap fs') = true
  /\ encode (VMap fs) = Return out None
  /\ encode (VMap fs') = Return out None
  /\ len out < 2 ^ 32
  /\ normalize (VMap fs) = normalize (VMap fs').
Proof.
  intros fs fs' out.
  assert (Hsize : len out < 2 ^ 32) by (vm_compute; reflexivity).
  repeat (split; [reflexivity || exact Hsize|]).
  exact (encode_injective fs fs' out eq_refl eq_refl eq_refl eq_refl Hsize).
Defined.

(** ** Which error *)






End bson_extra.
